(** * NotesVault: the localization service

    A shallow embedding of [src/resources/localization] (the translation
    source registry) and of [src/lib/services/localizationService.ts]
    (language resolver, translation cache, change emitter and the
    [LocalizationService] facade), followed by the properties of the
    specification that were checked against it.

    Conventions.
    - A member of the string enum [AppLanguage] is its run-time value, a
      string; [Object.values(AppLanguage)] is the list of these strings.
    - A translation table (a JSON object of string templates) is a finite
      map from keys to strings; the spread [{...a, ...b}] is the union in
      which the entries of [b] win.
    - Methods that touch the module-level state ([translationCache],
      [localizationStorage], the emitter's array, the console) are
      computations in a state-and-exception monad [Js].
    - A method runs to completion: the [await]s of [initialize] and
      [changeLanguage] order their steps, and no other call is
      interleaved with them.
    - The collaborators that are not part of the repository (MMKV,
      react-native-localize, i18next, [JSON.stringify], the subscribers'
      callbacks) are the fields of an environment record [Env]. *)

From stdpp Require Import base strings list gmap fin_maps fin_map_dom.

Local Open Scope string_scope.
Local Open Scope Z_scope.
Local Open Scope list_scope.

(** ** JavaScript completions and the effect monad *)

Module Js.

(** A thrown value: [new Error(message)]. *)
Inductive Exn : Type :=
| Error (message : string).

(** How the evaluation of a call ends. *)
Inductive Completion (A : Type) : Type :=
| Normal (a : A)
| Throw (e : Exn).
Arguments Normal {A} a.
Arguments Throw {A} e.

(** A computation over a store [S]: what was written before a throw
    stays written. *)
Definition M (S A : Type) : Type := S → Completion A * S.

Definition ret {S A} (a : A) : M S A := λ s, (Normal a, s).

Definition bind {S A B} (m : M S A) (k : A → M S B) : M S B :=
  λ s, match m s with
       | (Normal a, s') => k a s'
       | (Throw e, s') => (Throw e, s')
       end.

Definition throw {S A} (e : Exn) : M S A := λ s, (Throw e, s).

(** [try { m } catch (error) { handler error }] *)
Definition try_catch {S A} (m : M S A) (handler : Exn → M S A) : M S A :=
  λ s, match m s with
       | (Normal a, s') => (Normal a, s')
       | (Throw e, s') => handler e s'
       end.

Definition gets {S A} (f : S → A) : M S A := λ s, (Normal (f s), s).

Definition modify {S} (f : S → S) : M S unit := λ s, (Normal tt, f s).

(** An external call that either returns or throws, without touching
    the store. *)
Definition lift {S A} (c : Completion A) : M S A := λ s, (c, s).

End Js.

Import Js.

Notation "x <- m ;; k" := (bind m (λ x, k))
  (at level 100, m at next level, right associativity, only parsing).
Notation "m ;;; k" := (bind m (λ _, k))
  (at level 100, right associativity, only parsing).

(** JavaScript truthiness of a string. *)
Definition truthy (s : string) : bool := negb (String.eqb s "").

(** ** The translation source registry ([resources/localization]) *)

Module Resources.

(** [enum AppLanguage { en = 'en', fr = 'fr' }] *)
Definition AppLanguage_en : string := "en".
Definition AppLanguage_fr : string := "fr".

(** [Object.values(AppLanguage)] *)
Definition Object_values_AppLanguage : list string :=
  [AppLanguage_en; AppLanguage_fr].

(** [Object.values(AppLanguage).includes(x)] *)
Definition includes (xs : list string) (x : string) : bool :=
  existsb (String.eqb x) xs.

(** A translation table. *)
Abbreviation Localizations := (gmap string string).

(** [{ ...a, ...b }] *)
Definition spread (a b : Localizations) : Localizations := b ∪ a.

(** [LanguageNameInEnglish] *)
Definition LanguageNameInEnglish (code : string) : option string :=
  if String.eqb code AppLanguage_en then Some "English"
  else if String.eqb code AppLanguage_fr then Some "French"
  else None.

Section Tables.

(** The two JSON files imported by the module ([./en.json] and
    [./fr.json]); their contents are data of the application. *)
Variables en fr : Localizations.

(** [languageSource] *)
Definition languageSource (source : string) : option Localizations :=
  if String.eqb source AppLanguage_en then Some en
  else if String.eqb source AppLanguage_fr then Some fr
  else None.

(** [languageFactories]: [en: () => en], [fr: () => ({ ...en, ...fr })]. *)
Definition languageFactories (language : string)
  : option (unit → Localizations) :=
  if String.eqb language AppLanguage_en then Some (λ _, en)
  else if String.eqb language AppLanguage_fr then Some (λ _, spread en fr)
  else None.

(** [listMissingStringsForLanguage]: the entries of [en] whose key the
    raw table of [source] does not have.  [None] stands for the
    [TypeError] of [Object.keys(undefined)] on a value outside the
    enum. *)
Definition listMissingStringsForLanguage (source : string)
  : option Localizations :=
  match languageSource source with
  | Some language =>
      Some (filter (λ kv, bool_decide (kv.1 ∉ dom language)) en)
  | None => None
  end.

(** What the type [Partial<Localizations>], asserted of the raw French
    table with [Localizations = typeof en], would say of a table: each of
    its keys is a key of [en].  The assertion is a cast; nothing checks
    it when the module runs. *)
Definition Partial_Localizations (t : Localizations) : Prop :=
  dom t ⊆ dom en.

End Tables.

End Resources.

Import Resources.

(** ** The state of [localizationService.ts] *)

Module Service.

(** [const FALLBACK_LANGUAGE = AppLanguage.en] *)
Definition FALLBACK_LANGUAGE : string := AppLanguage_en.

(** [STORAGE_KEYS] *)
Definition CURRENT_LANGUAGE : string := "current_language".
Definition LANGUAGE_OVERRIDE : string := "language_override".
Definition LANGUAGE_CACHE_PREFIX : string := "lang_cache_".

(** The error of [changeLanguage] for a value outside the enum:
    [new Error(`Unsupported language: ${language}`)]. *)
Definition UnsupportedLanguageError (language : string) : Exn :=
  Error ("Unsupported language: " +:+ language).

(** A subscriber callback, identified the way [indexOf] identifies it:
    by reference. *)
Definition Listener : Type := nat.

(** What the body of a callback may do to the emitter while it runs:
    call the unsubscribe function of a registration, register a
    callback, or throw.  Callbacks that call back into the facade are
    not covered. *)
Inductive Action : Type :=
| CallUnsubscribe (l : Listener)
| CallSubscribe (l : Listener)
| Raise (e : Exn).

(** An entry of the list returned by [getLocales()]. *)
Record Locale : Type := mkLocale {
  languageCode : string;
  countryCode : string
}.

(** The options object handed to [i18n.init]. *)
Record InitOptions : Type := mkInitOptions {
  lng : string;
  fallbackLng : string;
  resources : gmap string Localizations;
  escapeValue : bool;
  useSuspense : bool
}.

(** The i18next instance, as far as the service drives it. *)
Record I18n : Type := mkI18n {
  i18n_options : option InitOptions;
  i18n_language : option string
}.

(** The second argument of [t] (interpolation parameters). *)
Abbreviation Options := (gmap string string).

Inductive Level : Type := LOG | WARN | ERROR.

(** A console line: its level, its text and the error object printed
    after it, if any. *)
Record LogEntry : Type := mkLog {
  log_level : Level;
  log_text : string;
  log_error : option Exn
}.

Record State : Type := mkState {
  (** [LocalizationService.currentLanguage] *)
  currentLanguage : string;
  (** [LocalizationService.isInitialized] *)
  isInitialized : bool;
  (** [translationCache : Map<AppLanguage, Localizations>] *)
  translationCache : gmap string Localizations;
  (** the contents of [localizationStorage] *)
  localizationStorage : gmap string string;
  (** [languageChangeEmitter.listeners] *)
  listeners : list Listener;
  (** the [i18n] instance *)
  i18n : I18n;
  (** everything printed so far *)
  console : list LogEntry;
  (** every callback invocation so far, with its argument *)
  calls : list (Listener * string)
}.

Definition set_currentLanguage (v : string) (s : State) : State :=
  mkState v (isInitialized s) (translationCache s) (localizationStorage s)
          (listeners s) (i18n s) (console s) (calls s).

Definition set_isInitialized (v : bool) (s : State) : State :=
  mkState (currentLanguage s) v (translationCache s) (localizationStorage s)
          (listeners s) (i18n s) (console s) (calls s).

Definition set_translationCache (v : gmap string Localizations) (s : State)
  : State :=
  mkState (currentLanguage s) (isInitialized s) v (localizationStorage s)
          (listeners s) (i18n s) (console s) (calls s).

Definition set_localizationStorage (v : gmap string string) (s : State)
  : State :=
  mkState (currentLanguage s) (isInitialized s) (translationCache s) v
          (listeners s) (i18n s) (console s) (calls s).

Definition set_listeners (v : list Listener) (s : State) : State :=
  mkState (currentLanguage s) (isInitialized s) (translationCache s)
          (localizationStorage s) v (i18n s) (console s) (calls s).

Definition set_i18n (v : I18n) (s : State) : State :=
  mkState (currentLanguage s) (isInitialized s) (translationCache s)
          (localizationStorage s) (listeners s) v (console s) (calls s).

Definition set_console (v : list LogEntry) (s : State) : State :=
  mkState (currentLanguage s) (isInitialized s) (translationCache s)
          (localizationStorage s) (listeners s) (i18n s) v (calls s).

Definition set_calls (v : list (Listener * string)) (s : State) : State :=
  mkState (currentLanguage s) (isInitialized s) (translationCache s)
          (localizationStorage s) (listeners s) (i18n s) (console s) v.

(** The state of a freshly loaded module: the fallback language, not
    initialized, nothing cached, no subscriber; the durable store holds
    whatever earlier runs left in it. *)
Definition initial_state (stored : gmap string string) : State :=
  mkState FALLBACK_LANGUAGE false ∅ stored [] (mkI18n None None) [] [].

(** The collaborators outside the repository.  A field [*_error] says
    whether the call throws ([Some e]) or goes through ([None]). *)
Record Env : Type := mkEnv {
  (** [./en.json] and [./fr.json] *)
  en_json : Localizations;
  fr_json : Localizations;
  (** react-native-mmkv *)
  mmkv_getString_error : string → option Exn;
  mmkv_set_error : string → option Exn;
  mmkv_clearAll_error : option Exn;
  mmkv_getAllKeys_error : option Exn;
  (** react-native-localize: what [getLocales()] does *)
  getLocales : Completion (list Locale);
  (** i18next *)
  i18n_init_error : InitOptions → option Exn;
  i18n_changeLanguage_error : string → option Exn;
  i18n_t : I18n → string → option Options → string;
  (** [JSON.stringify] on a translation table *)
  JSON_stringify : Localizations → string;
  (** the body of each subscriber callback, given its argument *)
  listener_body : Listener → string → list Action
}.

(** The value returned by [t]: declared a string, it is the function
    [i18n.t] itself on one path. *)
Inductive Translated : Type :=
| LookupFunction
| Text (s : string).

(** The value returned by [getCacheStats]. *)
Record CacheStats : Type := mkStats {
  cachedLanguages : nat;
  storageSize : nat
}.

Abbreviation JsM := (M State).

Section Operations.

Variable env : Env.

(** *** Console *)

Definition console_print (level : Level) (text : string)
           (error : option Exn) : JsM unit :=
  modify (λ s, set_console (console s ++ [mkLog level text error]) s).

Definition console_log (text : string) : JsM unit :=
  console_print LOG text None.
Definition console_warn (text : string) (error : Exn) : JsM unit :=
  console_print WARN text (Some error).
Definition console_error (text : string) (error : Exn) : JsM unit :=
  console_print ERROR text (Some error).

(** *** The durable store ([localizationStorage]) *)

Definition storage_getString (key : string) : JsM (option string) :=
  match mmkv_getString_error env key with
  | Some e => throw e
  | None => gets (λ s, localizationStorage s !! key)
  end.

Definition storage_set (key value : string) : JsM unit :=
  match mmkv_set_error env key with
  | Some e => throw e
  | None =>
      modify (λ s, set_localizationStorage
                     (<[key := value]> (localizationStorage s)) s)
  end.

Definition storage_clearAll : JsM unit :=
  match mmkv_clearAll_error env with
  | Some e => throw e
  | None => modify (set_localizationStorage ∅)
  end.

Definition storage_getAllKeys : JsM (list string) :=
  match mmkv_getAllKeys_error env with
  | Some e => throw e
  | None => gets (λ s, (map_to_list (localizationStorage s)).*1)
  end.

(** *** The i18next instance *)

Definition i18n_init (options : InitOptions) : JsM unit :=
  match i18n_init_error env options with
  | Some e => throw e
  | None => modify (set_i18n (mkI18n (Some options) (Some (lng options))))
  end.

Definition i18n_changeLanguage (language : string) : JsM unit :=
  match i18n_changeLanguage_error env language with
  | Some e => throw e
  | None =>
      modify (λ s, set_i18n (mkI18n (i18n_options (i18n s))
                                    (Some language)) s)
  end.

(** *** [LanguageChangeEmitter] *)

(** [this.listeners.indexOf(listener)], [-1] when absent. *)
Fixpoint indexOf (ls : list Listener) (listener : Listener) : Z :=
  match ls with
  | [] => -1
  | l :: rest =>
      if Nat.eqb l listener then 0
      else let i := indexOf rest listener in
           if Z.ltb (-1) i then i + 1 else -1
  end.

(** [array.splice(index, 1)] for [index >= 0]. *)
Definition splice1 (ls : list Listener) (index : Z) : list Listener :=
  take (Z.to_nat index) ls ++ drop (S (Z.to_nat index)) ls.

(** [subscribe(listener)]: the push. *)
Definition subscribe (listener : Listener) : JsM unit :=
  modify (λ s, set_listeners (listeners s ++ [listener]) s).

(** The function returned by [subscribe(listener)]. *)
Definition unsubscribe (listener : Listener) : JsM unit :=
  ls <- gets listeners ;;
  let index := indexOf ls listener in
  if Z.ltb (-1) index
  then modify (set_listeners (splice1 ls index))
  else ret tt.

Definition run_action (a : Action) : JsM unit :=
  match a with
  | CallUnsubscribe l => unsubscribe l
  | CallSubscribe l => subscribe l
  | Raise e => throw e
  end.

Fixpoint run_actions (body : list Action) : JsM unit :=
  match body with
  | [] => ret tt
  | a :: rest => run_action a ;;; run_actions rest
  end.

(** [listener(language)] *)
Definition call_listener (listener : Listener) (language : string)
  : JsM unit :=
  modify (λ s, set_calls (calls s ++ [(listener, language)]) s) ;;;
  run_actions (listener_body env listener language).

(** [Array.prototype.forEach] on [this.listeners]: the length is read
    once, then for each index [k] below it, in order, the callback is
    applied to the element found at [k] in the array as it is at that
    moment, and an index that is no longer present is passed over.
    [n] counts the indices still to visit. *)
Fixpoint forEach_from (n k : nat) (language : string) : JsM unit :=
  match n with
  | O => ret tt
  | S n' =>
      ls <- gets listeners ;;
      match ls !! k with
      | Some listener =>
          call_listener listener language ;;;
          forEach_from n' (S k) language
      | None => forEach_from n' (S k) language
      end
  end.

(** [emit(language)] *)
Definition emit (language : string) : JsM unit :=
  ls <- gets listeners ;;
  forEach_from (length ls) 0%nat language.

(** *** The facade: private helpers *)

(** [getLanguageOverride] *)
Definition getLanguageOverride : JsM (option string) :=
  try_catch
    (override <- storage_getString LANGUAGE_OVERRIDE ;;
     match override with
     | Some o =>
         if truthy o && includes Object_values_AppLanguage o
         then ret (Some o) else ret None
     | None => ret None
     end)
    (λ error,
       console_warn "Failed to get language override:" error ;;;
       ret None).

(** [getSavedLanguage] *)
Definition getSavedLanguage : JsM (option string) :=
  try_catch
    (saved <- storage_getString CURRENT_LANGUAGE ;;
     match saved with
     | Some v =>
         if truthy v && includes Object_values_AppLanguage v
         then ret (Some v) else ret None
     | None => ret None
     end)
    (λ error,
       console_warn "Failed to get saved language:" error ;;;
       ret None).

(** [getDeviceLanguage]; [locales[0]?.languageCode] is [head] followed
    by the field. *)
Definition getDeviceLanguage : JsM string :=
  try_catch
    (locales <- lift (getLocales env) ;;
     match languageCode <$> head locales with
     | Some deviceLang =>
         if truthy deviceLang
            && includes Object_values_AppLanguage deviceLang
         then ret deviceLang else ret FALLBACK_LANGUAGE
     | None => ret FALLBACK_LANGUAGE
     end)
    (λ error,
       console_warn "Failed to get device language:" error ;;;
       ret FALLBACK_LANGUAGE).

(** [getInitialLanguage]; [if (override)] and [if (savedLanguage)] test
    a value that is [null] or a member of the enum. *)
Definition getInitialLanguage (allowLanguageOverride : bool)
  : JsM string :=
  override <- (if allowLanguageOverride then getLanguageOverride
               else ret None) ;;
  match override with
  | Some o => ret o
  | None =>
      savedLanguage <- getSavedLanguage ;;
      match savedLanguage with
      | Some v => ret v
      | None => getDeviceLanguage
      end
  end.

(** [saveLanguage] *)
Definition saveLanguage (language : string) : JsM unit :=
  try_catch
    (storage_set CURRENT_LANGUAGE language)
    (λ error, console_error "Failed to save language:" error).

(** [cacheTranslations] *)
Definition cacheTranslations (language : string)
           (translations : Localizations) : JsM unit :=
  try_catch
    (let cacheKey := LANGUAGE_CACHE_PREFIX +:+ language in
     storage_set cacheKey (JSON_stringify env translations))
    (λ error,
       console_warn ("Failed to cache translations for " +:+ language
                     +:+ ":") error).

(** The constant [mergedTranslations] of [loadTranslations]: the
    table of the factory, with the caller's table for the language
    spread over it when there is one (any object is truthy). *)
Definition mergedTranslations
           (translations : gmap string Localizations) (language : string)
           (baseTranslations : Localizations) : Localizations :=
  match translations !! language with
  | Some override => spread baseTranslations override
  | None => baseTranslations
  end.

(** The body of the loop of [loadTranslations] for one language.
    Calling a factory that the registry does not have is a
    [TypeError], caught like any other failure. *)
Definition loadTranslations_step
           (translations : gmap string Localizations) (language : string)
  : JsM unit :=
  cache <- gets translationCache ;;
  match cache !! language with
  | Some _ => ret tt
  | None =>
      try_catch
        (baseTranslations <-
           match languageFactories (en_json env) (fr_json env) language
           with
           | Some factory => ret (factory tt)
           | None =>
               throw (Error "languageFactories[language] is not a function")
           end ;;
         let merged :=
           mergedTranslations translations language baseTranslations in
         modify (λ s, set_translationCache
                        (<[language := merged]> (translationCache s))
                        s) ;;;
         cacheTranslations language merged)
        (λ error,
           console_error ("Failed to load translations for " +:+ language
                          +:+ ":") error)
  end.

Fixpoint for_of (languages : list string) (body : string → JsM unit)
  : JsM unit :=
  match languages with
  | [] => ret tt
  | language :: rest => body language ;;; for_of rest body
  end.

(** [loadTranslations] *)
Definition loadTranslations (translations : gmap string Localizations)
  : JsM unit :=
  for_of Object_values_AppLanguage (loadTranslations_step translations).

(** [buildI18nResources]; the table of a language stands for the object
    [{ translation: translations }] that wraps it. *)
Definition buildI18nResources : JsM (gmap string Localizations) :=
  cache <- gets translationCache ;;
  ret (foldl (λ (resources : gmap string Localizations) language,
                match cache !! language with
                | Some translations =>
                    <[language := translations]> resources
                | None => resources
                end)
             ∅ Object_values_AppLanguage).

(** *** The facade: public methods *)

(** [initialize] *)
Definition initialize (translations : gmap string Localizations)
           (allowLanguageOverride : bool) : JsM unit :=
  initialized <- gets isInitialized ;;
  if initialized then ret tt
  else
    try_catch
      (initialLanguage <- getInitialLanguage allowLanguageOverride ;;
       loadTranslations translations ;;;
       resources <- buildI18nResources ;;
       i18n_init (mkInitOptions initialLanguage FALLBACK_LANGUAGE
                                resources false false) ;;;
       modify (set_currentLanguage initialLanguage) ;;;
       modify (set_isInitialized true) ;;;
       current <- gets currentLanguage ;;
       console_log ("Localization initialized with language: "
                    +:+ current))
      (λ error,
         console_error "Failed to initialize localization:" error ;;;
         throw error).

(** [getCurrentLanguage] *)
Definition getCurrentLanguage : JsM string := gets currentLanguage.

(** [getAvailableLanguages] *)
Definition getAvailableLanguages : list (string * option string) :=
  map (λ code, (code, LanguageNameInEnglish code))
      Object_values_AppLanguage.

(** [changeLanguage] *)
Definition changeLanguage (language : string) : JsM unit :=
  if negb (includes Object_values_AppLanguage language)
  then throw (UnsupportedLanguageError language)
  else
    try_catch
      (i18n_changeLanguage language ;;;
       modify (set_currentLanguage language) ;;;
       saveLanguage language ;;;
       emit language ;;;
       console_log ("Language changed to: " +:+ language))
      (λ error,
         console_error "Failed to change language:" error ;;;
         throw error).

(** [t]: [!key] holds for a missing argument and for the empty
    string. *)
Definition t (key : option string) (options : option Options)
  : JsM Translated :=
  match key with
  | Some k =>
      if negb (truthy k) then ret LookupFunction
      else engine <- gets i18n ;;
           ret (Text (i18n_t env engine k options))
  | None => ret LookupFunction
  end.

(** [onLanguageChange] *)
Definition onLanguageChange (listener : Listener) : JsM unit :=
  subscribe listener.

(** [clearCache] *)
Definition clearCache : JsM unit :=
  try_catch
    (modify (set_translationCache ∅) ;;;
     storage_clearAll ;;;
     console_log "Localization cache cleared")
    (λ error, console_error "Failed to clear localization cache:" error).

(** [getCacheStats] *)
Definition getCacheStats : JsM CacheStats :=
  cache <- gets translationCache ;;
  keys <- storage_getAllKeys ;;
  ret (mkStats (size cache) (length keys)).

(** [loadCachedTranslations]; [JSON.parse] is given as what it does on a
    text: it returns a table or throws.  [cached ? ... : null] takes the
    empty text for absent. *)
Definition loadCachedTranslations
           (JSON_parse : string → Completion Localizations)
           (language : string) : JsM (option Localizations) :=
  try_catch
    (let cacheKey := LANGUAGE_CACHE_PREFIX +:+ language in
     cached <- storage_getString cacheKey ;;
     match cached with
     | Some text =>
         if truthy text
         then parsed <- lift (JSON_parse text) ;; ret (Some parsed)
         else ret None
     | None => ret None
     end)
    (λ error,
       console_warn ("Failed to load cached translations for " +:+ language
                     +:+ ":") error ;;;
       ret None).

(** [initializeI18n]: [translations || {}]. *)
Definition initializeI18n
           (translations : option (gmap string Localizations))
           (allowLanguageOverride : bool) : JsM unit :=
  initialize (default ∅ translations) allowLanguageOverride.

End Operations.

End Service.

Import Service.

(** ** The application's start-up ([App]) *)

Module App.

Section Startup.

Variable env : Env.

(** [languageFactories[language]()] *)
Definition call_factory (language : string) : JsM Localizations :=
  match languageFactories (en_json env) (fr_json env) language with
  | Some factory => ret (factory tt)
  | None => throw (Error "languageFactories[language] is not a function")
  end.

(** [initializeApp]; the result is the value handed to [setIsReady]. *)
Definition initializeApp : JsM bool :=
  try_catch
    (en_table <- call_factory AppLanguage_en ;;
     fr_table <- call_factory AppLanguage_fr ;;
     let translations : gmap string Localizations :=
       <[AppLanguage_fr := fr_table]> (<[AppLanguage_en := en_table]> ∅) in
     initializeI18n env (Some translations) true ;;;
     ret true)
    (λ error,
       console_error "Failed to initialize app:" error ;;;
       ret true).

End Startup.

End App.

(** ** Sequences of calls on the singleton *)

(** A call of a public method of [localizationService], or of a function
    that [onLanguageChange] returned. *)
Inductive Call : Type :=
| CallInitialize (translations : option (gmap string Localizations))
                 (allowLanguageOverride : bool)
| CallGetCurrentLanguage
| CallChangeLanguage (language : string)
| CallT (key : option string) (options : option Options)
| CallOnLanguageChange (listener : Listener)
| CallReturnedUnsubscribe (listener : Listener)
| CallClearCache
| CallGetCacheStats.

(** The state a call leaves, whether it returns or throws. *)
Definition run_call (env : Env) (c : Call) (s : State) : State :=
  match c with
  | CallInitialize translations allowLanguageOverride =>
      (initializeI18n env translations allowLanguageOverride s).2
  | CallGetCurrentLanguage => (getCurrentLanguage s).2
  | CallChangeLanguage language => (changeLanguage env language s).2
  | CallT key options => (t env key options s).2
  | CallOnLanguageChange listener => (onLanguageChange listener s).2
  | CallReturnedUnsubscribe listener => (unsubscribe listener s).2
  | CallClearCache => (clearCache env s).2
  | CallGetCacheStats => (getCacheStats env s).2
  end.

(** The calls of a list, one after the other. *)
Definition run_calls (env : Env) (cs : list Call) (s : State) : State :=
  foldl (λ s c, run_call env c s) s cs.

(** ** The resolution order as the specification words it *)

Module Spec.

(** The value of a level counts when it names a supported language. *)
Definition names_supported (value : option string) : option string :=
  match value with
  | Some l => if bool_decide (l ∈ Object_values_AppLanguage)
              then Some l else None
  | None => None
  end.

(** First match of: the override (when allowed), the saved language,
    the first preference of the device, the fallback ['en']. *)
Definition resolveInitialLanguage
           (override saved device : option string) (allowOverride : bool)
  : string :=
  match (if allowOverride then names_supported override else None) with
  | Some l => l
  | None =>
      match names_supported saved with
      | Some l => l
      | None =>
          match names_supported device with
          | Some l => l
          | None => "en"
          end
      end
  end.

(** What a read of the durable store yields for the resolver: a read
    that fails counts as an absent value. *)
Definition persisted (env : Env) (s : State) (key : string)
  : option string :=
  match mmkv_getString_error env key with
  | Some _ => None
  | None => localizationStorage s !! key
  end.

(** The language code of the first preference of the device, absent
    when the provider fails or lists nothing. *)
Definition device_preference (env : Env) : option string :=
  match getLocales env with
  | Normal locales => languageCode <$> head locales
  | Throw _ => None
  end.

End Spec.

(** ** Conditions on the subscribers' callbacks *)

Definition is_raise (a : Action) : bool :=
  match a with Raise _ => true | _ => false end.

Definition is_unsubscribe (a : Action) : bool :=
  match a with CallUnsubscribe _ => true | _ => false end.


(** The callback [l] neither unsubscribes anything nor throws when called
    with [language]. *)
Definition keeps_registry (env : Env) (language : string) (l : Listener)
  : Prop :=
  forallb (λ a, negb (is_raise a) && negb (is_unsubscribe a))
          (listener_body env l language) = true.

(** The state differs from [s] by console lines only. *)
Definition printed (s s' : State) : Prop :=
  ∃ lines, s' = set_console (console s ++ lines) s.

(** The state differs from [s] by the subscriber list and the record of
    callback invocations only. *)
Definition emitter_only (s s' : State) : Prop :=
  s' = set_calls (calls s') (set_listeners (listeners s') s).

(** The state differs from [s] by the translation cache, the durable
    store and the console only. *)
Definition cache_only (s s' : State) : Prop :=
  s' = set_console (console s')
         (set_localizationStorage (localizationStorage s')
            (set_translationCache (translationCache s') s)).

(** Every cached table belongs to a supported language and has every
    key of the reference table. *)
Definition cache_complete (env : Env) (s : State) : Prop :=
  ∀ language table,
    translationCache s !! language = Some table →
    language ∈ Object_values_AppLanguage ∧ dom (en_json env) ⊆ dom table.

(** ** Concrete scenarios *)

Module Scenario.

Definition en : Localizations :=
  {[ "app.name" := "NotesVault"; "common.ok" := "OK" ]}.

Definition fr : Localizations :=
  {[ "common.ok" := "D'accord" ]}.

(** A lookup in the manner of i18next: the table of the active
    language, else the key itself. *)
Definition lookup (engine : I18n) (key : string) (_ : option Options)
  : string :=
  match i18n_options engine, i18n_language engine with
  | Some options, Some language =>
      match resources options !! language with
      | Some table => default key (table !! key)
      | None => key
      end
  | _, _ => key
  end.

Definition stringify (table : Localizations) : string :=
  foldr (λ kv acc, kv.1 +:+ "=" +:+ kv.2 +:+ ";" +:+ acc) ""
        (map_to_list table).


Definition quiet (_ : Listener) (_ : string) : list Action := [].

(** Everything works. *)
Definition env_ok : Env :=
  mkEnv en fr (λ _, None) (λ _, None) None None
        (Normal [mkLocale "en" "US"])
        (λ _, None) (λ _, None) lookup stringify quiet.


(** Every write to the durable store fails. *)
Definition env_readonly : Env :=
  mkEnv en fr (λ _, None) (λ _, Some (Error "write failed")) None None
        (Normal [mkLocale "en" "US"])
        (λ _, None) (λ _, None) lookup stringify quiet.

(** The translation engine fails to start. *)
Definition env_engine_down : Env :=
  mkEnv en fr (λ _, None) (λ _, None) None None
        (Normal [mkLocale "en" "US"])
        (λ _, Some (Error "init failed")) (λ _, None) lookup stringify
        quiet.

(** Tables handed to [initialize] by a caller: one French phrase. *)
Definition overrides : gmap string Localizations :=
  {[ "fr" := {[ "app.name" := "Carnet" ]} ]}.

(** A store left by an earlier run. *)
Definition stored : gmap string string :=
  {[ "language_override" := "fr"; "current_language" := "en" ]}.

(** Two subscribers, 1 then 2, on a fresh module. *)
Definition two_subscribers : State :=
  set_listeners [1%nat; 2%nat] (initial_state ∅).

(** A fresh module after a successful [initialize]. *)
Definition ready : State :=
  (initialize env_ok ∅ true (initial_state ∅)).2.

(** Callback 2 throws when called; the others do nothing. *)
Definition thrower (l : Listener) (_ : string) : list Action :=
  if Nat.eqb l 2 then [Raise (Error "listener failed")] else [].

(** As [env_ok], with the throwing callback. *)
Definition env_thrower : Env :=
  mkEnv en fr (λ _, None) (λ _, None) None None
        (Normal [mkLocale "en" "US"])
        (λ _, None) (λ _, None) lookup stringify thrower.

(** The engine refuses to switch language. *)
Definition env_engine_stuck : Env :=
  mkEnv en fr (λ _, None) (λ _, None) None None
        (Normal [mkLocale "en" "US"])
        (λ _, None) (λ _, Some (Error "switch failed")) lookup stringify
        quiet.

(** The durable store cannot be wiped. *)
Definition env_no_wipe : Env :=
  mkEnv en fr (λ _, None) (λ _, None) (Some (Error "wipe failed")) None
        (Normal [mkLocale "en" "US"])
        (λ _, None) (λ _, None) lookup stringify quiet.

(** A device set to French. *)
Definition env_french_device : Env :=
  mkEnv en fr (λ _, None) (λ _, None) None None
        (Normal [mkLocale "fr" "FR"])
        (λ _, None) (λ _, None) lookup stringify quiet.

(** A parser that knows the texts of the two factory tables. *)
Definition parse (text : string) : Completion Localizations :=
  if String.eqb text (stringify en) then Normal en
  else if String.eqb text (stringify (spread en fr))
       then Normal (spread en fr)
       else Throw (Error "Unexpected token").

(** A raw French table with a phrase the reference table lacks. *)
Definition fr_extra : Localizations :=
  {[ "common.ok" := "D'accord"; "fr.only" := "Uniquement" ]}.


(** A French device and an engine whose setup fails for French only. *)
Definition env_no_french_engine : Env :=
  mkEnv en fr (λ _, None) (λ _, None) None None
        (Normal [mkLocale "fr" "FR"])
        (λ options, if String.eqb (lng options) "fr"
                    then Some (Error "init failed") else None)
        (λ _, None) lookup stringify quiet.

(** Three subscribers, 1, 2 and 3, on a ready module. *)
Definition three_subscribers : State :=
  set_listeners [1%nat; 2%nat; 3%nat] ready.

End Scenario.

(** * Properties *)

(** ** Reasoning about [Js] computations *)

Ltac js_unfold :=
  unfold bind, ret, throw, try_catch, gets, modify, lift in *.

Ltac js_simp := js_unfold; simpl in *.

(** ** The emitter's array operations on small inputs *)

Example indexOf_present : indexOf [1; 2; 3]%nat 3%nat = 2.
Proof. reflexivity. Qed.

Example indexOf_absent : indexOf [1; 2; 3]%nat 7%nat = -1.
Proof. reflexivity. Qed.

Example unsubscribe_first_occurrence :
  listeners
    (unsubscribe 2%nat
       (set_listeners [1; 2; 3; 2]%nat (initial_state ∅))).2
  = [1; 3; 2]%nat.
Proof. reflexivity. Qed.

Example unsubscribe_unknown :
  listeners
    (unsubscribe 7%nat (set_listeners [1; 2]%nat (initial_state ∅))).2
  = [1; 2]%nat.
Proof. reflexivity. Qed.

Example available_languages :
  getAvailableLanguages = [("en", Some "English"); ("fr", Some "French")].
Proof. reflexivity. Qed.

Lemma includes_elem_of (xs : list string) (x : string) :
  includes xs x = bool_decide (x ∈ xs).
Proof.
  induction xs as [|y ys IH].
  - symmetry. apply bool_decide_eq_false_2, not_elem_of_nil.
  - change (includes (y :: ys) x) with (String.eqb x y || includes ys x).
    rewrite IH. destruct (String.eqb_spec x y) as [->|Hne]; simpl.
    + symmetry. apply bool_decide_eq_true_2. left.
    + apply bool_decide_ext. rewrite elem_of_cons. intuition congruence.
Qed.

Lemma supported_truthy (x : string) :
  x ∈ Object_values_AppLanguage → truthy x = true.
Proof.
  unfold Object_values_AppLanguage, AppLanguage_en, AppLanguage_fr.
  rewrite !elem_of_cons, elem_of_nil. intros [->|[->|[]]]; reflexivity.
Qed.

Lemma supported_check (x : string) :
  truthy x && includes Object_values_AppLanguage x
  = bool_decide (x ∈ Object_values_AppLanguage).
Proof.
  rewrite includes_elem_of. case_bool_decide as Hx.
  - by rewrite (supported_truthy x Hx).
  - apply andb_false_r.
Qed.

Lemma printed_refl (s : State) : printed s s.
Proof.
  exists []. destruct s; unfold set_console; simpl. by rewrite app_nil_r.
Qed.

Lemma printed_trans (s1 s2 s3 : State) :
  printed s1 s2 → printed s2 s3 → printed s1 s3.
Proof.
  intros [l1 ->] [l2 ->]. exists (l1 ++ l2).
  unfold set_console; simpl. by rewrite app_assoc.
Qed.

Lemma printed_line (s : State) (line : LogEntry) :
  printed s (set_console (console s ++ [line]) s).
Proof. by exists [line]. Qed.

Lemma printed_frame (s s' : State) :
  printed s s' →
  currentLanguage s' = currentLanguage s
  ∧ isInitialized s' = isInitialized s
  ∧ translationCache s' = translationCache s
  ∧ localizationStorage s' = localizationStorage s
  ∧ listeners s' = listeners s
  ∧ i18n s' = i18n s
  ∧ calls s' = calls s.
Proof. intros [lines ->]. by simpl. Qed.

(** ** The language resolver *)

Section Resolver.

Variable env : Env.

Lemma persisted_storage (s s' : State) (key : string) :
  printed s s' → Spec.persisted env s' key = Spec.persisted env s key.
Proof.
  intros H. apply printed_frame in H as (_ & _ & _ & Hst & _).
  unfold Spec.persisted. by rewrite Hst.
Qed.

Lemma getLanguageOverride_run (s : State) :
  ∃ s', getLanguageOverride env s
        = (Normal (Spec.names_supported
                     (Spec.persisted env s LANGUAGE_OVERRIDE)), s')
        ∧ printed s s'.
Proof.
  unfold getLanguageOverride, storage_getString, Spec.persisted,
    console_warn, console_print.
  destruct (mmkv_getString_error env LANGUAGE_OVERRIDE) as [e|]; js_simp.
  - eexists; split; [reflexivity | apply printed_line].
  - destruct (localizationStorage s !! LANGUAGE_OVERRIDE) as [o|]; simpl.
    + rewrite supported_check. case_bool_decide;
        (eexists; split; [reflexivity | apply printed_refl]).
    + eexists; split; [reflexivity | apply printed_refl].
Qed.

Lemma getSavedLanguage_run (s : State) :
  ∃ s', getSavedLanguage env s
        = (Normal (Spec.names_supported
                     (Spec.persisted env s CURRENT_LANGUAGE)), s')
        ∧ printed s s'.
Proof.
  unfold getSavedLanguage, storage_getString, Spec.persisted,
    console_warn, console_print.
  destruct (mmkv_getString_error env CURRENT_LANGUAGE) as [e|]; js_simp.
  - eexists; split; [reflexivity | apply printed_line].
  - destruct (localizationStorage s !! CURRENT_LANGUAGE) as [v|]; simpl.
    + rewrite supported_check. case_bool_decide;
        (eexists; split; [reflexivity | apply printed_refl]).
    + eexists; split; [reflexivity | apply printed_refl].
Qed.

Lemma getDeviceLanguage_run (s : State) :
  ∃ s', getDeviceLanguage env s
        = (Normal (default "en" (Spec.names_supported
                                   (Spec.device_preference env))), s')
        ∧ printed s s'.
Proof.
  unfold getDeviceLanguage, Spec.device_preference, console_warn,
    console_print.
  destruct (getLocales env) as [locales|e]; js_simp.
  - destruct (head locales) as [first|]; simpl.
    + rewrite supported_check. case_bool_decide;
        (eexists; split; [reflexivity | apply printed_refl]).
    + eexists; split; [reflexivity | apply printed_refl].
  - eexists; split; [reflexivity | apply printed_line].
Qed.

Lemma names_supported_elem_of (value : option string) (l : string) :
  Spec.names_supported value = Some l → l ∈ Object_values_AppLanguage.
Proof.
  destruct value as [v|]; simpl; [|done].
  case_bool_decide; [|done]. by intros [= <-].
Qed.

Lemma resolveInitialLanguage_supported
      (override saved device : option string) (allow : bool) :
  Spec.resolveInitialLanguage override saved device allow
  ∈ Object_values_AppLanguage.
Proof.
  unfold Spec.resolveInitialLanguage.
  destruct (if allow then _ else _) eqn:Ho.
  { destruct allow; [|done]. by eapply names_supported_elem_of. }
  destruct (Spec.names_supported saved) eqn:Hs.
  { by eapply names_supported_elem_of. }
  destruct (Spec.names_supported device) eqn:Hd.
  { by eapply names_supported_elem_of. }
  by left.
Qed.

(** The run of [getInitialLanguage], level by level. *)
Lemma getInitialLanguage_run (allowLanguageOverride : bool) (s : State) :
  ∃ s', getInitialLanguage env allowLanguageOverride s
        = (Normal (Spec.resolveInitialLanguage
                     (Spec.persisted env s LANGUAGE_OVERRIDE)
                     (Spec.persisted env s CURRENT_LANGUAGE)
                     (Spec.device_preference env)
                     allowLanguageOverride), s')
        ∧ printed s s'.
Proof.
  unfold getInitialLanguage, Spec.resolveInitialLanguage.
  assert (Hrest : ∀ s1, printed s s1 → ∃ s',
    bind (getSavedLanguage env)
         (λ savedLanguage, match savedLanguage with
                           | Some v => ret v
                           | None => getDeviceLanguage env
                           end) s1
    = (Normal match Spec.names_supported
                      (Spec.persisted env s CURRENT_LANGUAGE) with
              | Some l => l
              | None =>
                  match Spec.names_supported (Spec.device_preference env)
                  with Some l => l | None => "en" end
              end, s') ∧ printed s s').
  { intros s1 Hp1.
    destruct (getSavedLanguage_run s1) as (s2 & Hsaved & Hp2).
    unfold bind at 1. rewrite Hsaved.
    rewrite (persisted_storage s s1 _ Hp1).
    destruct (Spec.names_supported (Spec.persisted env s CURRENT_LANGUAGE)).
    - eexists; split; [reflexivity | by eapply printed_trans].
    - destruct (getDeviceLanguage_run s2) as (s3 & Hdevice & Hp3).
      rewrite Hdevice.
      destruct (Spec.names_supported (Spec.device_preference env));
        (eexists; split;
         [reflexivity | eapply printed_trans; [|exact Hp3];
                        by eapply printed_trans]). }
  destruct allowLanguageOverride.
  - destruct (getLanguageOverride_run s) as (s1 & Hover & Hp1).
    unfold bind at 1. rewrite Hover.
    destruct (Spec.names_supported (Spec.persisted env s LANGUAGE_OVERRIDE)).
    + eexists; split; [reflexivity | done].
    + destruct (Hrest s1 Hp1) as (s' & -> & Hp). by eexists.
  - unfold bind at 1, ret at 1.
    destruct (Hrest s (printed_refl s)) as (s' & -> & Hp). by eexists.
Qed.

(** C1. Whatever the durable store holds, whatever the provider
    answers and whichever reads fail, [getInitialLanguage] returns
    normally the first match of: the persisted override (consulted only
    when [allowLanguageOverride] is set, and only if it names a supported
    language), the persisted saved language (if supported), the language
    code of the first device locale (if supported), ['en'].  A failed
    read counts as an absent value, the result is a supported language,
    and nothing but the console changes. *)
Theorem getInitialLanguage_precedence
        (allowLanguageOverride : bool) (s : State) :
  let resolved :=
    Spec.resolveInitialLanguage
      (Spec.persisted env s LANGUAGE_OVERRIDE)
      (Spec.persisted env s CURRENT_LANGUAGE)
      (Spec.device_preference env)
      allowLanguageOverride in
  ∃ s', getInitialLanguage env allowLanguageOverride s
        = (Normal resolved, s')
        ∧ resolved ∈ Object_values_AppLanguage
        ∧ printed s s'.
Proof.
  intros resolved.
  destruct (getInitialLanguage_run allowLanguageOverride s)
    as (s' & Hrun & Hprinted).
  exists s'. split_and!.
  - exact Hrun.
  - apply resolveInitialLanguage_supported.
  - exact Hprinted.
Qed.

End Resolver.

(** The example of the specification: override ['fr'], saved ['en'],
    device ['en']. *)
Example resolve_with_override :
  (getInitialLanguage Scenario.env_ok true
     (initial_state Scenario.stored)).1 = Normal "fr".
Proof. reflexivity. Qed.

Example resolve_without_override :
  (getInitialLanguage Scenario.env_ok false
     (initial_state Scenario.stored)).1 = Normal "en".
Proof. reflexivity. Qed.

(** ** The translation source registry *)

Section Registry.

Variables en fr : Localizations.

(** The keys of the French factory's table, whatever [fr] holds. *)
Lemma spread_keys : dom (spread en fr) = dom en ∪ dom fr.
Proof. unfold spread. rewrite dom_union_L. apply (comm_L (∪)). Qed.

Lemma spread_lookup (key : string) :
  spread en fr !! key
  = match fr !! key with Some v => Some v | None => en !! key end.
Proof.
  unfold spread. destruct (fr !! key) as [v|] eqn:Hfr.
  - by apply lookup_union_Some_l.
  - by rewrite lookup_union_r.
Qed.

(** C2 as worded fails: a key that only the raw French table has is
    carried into the table of the French factory, which then has a key
    the reference table lacks. *)
Lemma languageFactories_extra_key_counterexample :
  "fr" ∈ Object_values_AppLanguage
  ∧ ∃ factory,
      languageFactories Scenario.en Scenario.fr_extra "fr" = Some factory
      ∧ ("fr.only" ∈ dom (factory tt))
      ∧ ("fr.only" ∉ dom Scenario.en)
      ∧ (dom (factory tt) ≠ dom Scenario.en).
Proof.
  split.
  - apply (bool_decide_unpack _). vm_compute. exact I.
  - eexists. split; [reflexivity|]. split_and!.
    + apply (bool_decide_unpack _). vm_compute. exact I.
    + apply (bool_decide_unpack _). vm_compute. exact I.
    + apply (bool_decide_unpack _). vm_compute. exact I.
Qed.

(** C2, amended. Every supported language has a factory, and the
    table it produces has every key of the reference table [en]: its keys
    are those of [en] together with those of the language's own raw
    table.  They are exactly the keys of [en] if and only if the raw
    table has no key outside [en]; a key that only the raw table has is
    not filtered out. *)
Theorem languageFactories_keys (language : string) :
  language ∈ Object_values_AppLanguage →
  ∃ factory raw,
    languageFactories en fr language = Some factory
    ∧ languageSource en fr language = Some raw
    ∧ dom (factory tt) = dom en ∪ dom raw
    ∧ dom en ⊆ dom (factory tt)
    ∧ (dom (factory tt) = dom en ↔ Partial_Localizations en raw).
Proof.
  unfold Partial_Localizations, Object_values_AppLanguage.
  intros Hin. rewrite !elem_of_cons, elem_of_nil in Hin.
  destruct Hin as [->|[->|[]]].
  - exists (λ _, en), en. split_and!; [reflexivity..| | |]; simpl.
    + by rewrite (idemp_L (∪)).
    + done.
    + done.
  - exists (λ _, spread en fr), fr.
    split_and!; [reflexivity..| | |]; simpl.
    + apply spread_keys.
    + rewrite spread_keys. apply union_subseteq_l.
    + rewrite spread_keys. split.
      * intros Heq. rewrite <- Heq. apply union_subseteq_r.
      * intros Hsub. rewrite (comm_L (∪)). by apply subseteq_union_1_L.
Qed.

End Registry.

Lemma languageFactories_keys_witness :
  ∃ factory raw,
    languageFactories Scenario.en Scenario.fr_extra "fr" = Some factory
    ∧ languageSource Scenario.en Scenario.fr_extra "fr" = Some raw
    ∧ dom (factory tt) = dom Scenario.en ∪ dom raw
    ∧ dom Scenario.en ⊆ dom (factory tt)
    ∧ (dom (factory tt) = dom Scenario.en
       ↔ Partial_Localizations Scenario.en raw).
Proof.
  apply (languageFactories_keys Scenario.en Scenario.fr_extra "fr").
  apply (bool_decide_unpack _). vm_compute. exact I.
Defined.

(** ** [changeLanguage] outside the supported set *)

(** C3. For a language outside [Object.values(AppLanguage)],
    [changeLanguage] throws the unsupported-language error and returns
    the very state it was called in: the active language, the durable
    store (so the saved language too), the translation cache, the
    subscriber list, the engine and the record of callback invocations
    (no notification) are all as before. *)
Theorem changeLanguage_unsupported (env : Env) (language : string)
        (s : State) :
  language ∉ Object_values_AppLanguage →
  changeLanguage env language s
  = (Throw (UnsupportedLanguageError language), s).
Proof.
  intros Hout. unfold changeLanguage.
  rewrite includes_elem_of, bool_decide_eq_false_2 by done.
  reflexivity.
Qed.

Lemma changeLanguage_unsupported_witness :
  changeLanguage Scenario.env_ok "de" Scenario.ready
  = (Throw (Error "Unsupported language: de"), Scenario.ready).
Proof.
  apply (changeLanguage_unsupported Scenario.env_ok "de" Scenario.ready).
  apply (bool_decide_unpack _). vm_compute. exact I.
Defined.

(** ** [t] *)

(** C5 as worded fails: a key that is a non-empty string and is absent
    from the table of the active language is handed to the engine, and
    what comes back is a string, not the lookup function. *)
Lemma t_absent_key_counterexample :
  (∀ table, translationCache Scenario.ready
              !! currentLanguage Scenario.ready = Some table →
            table !! "no.such.key" = None)
  ∧ (t Scenario.env_ok (Some "no.such.key") None Scenario.ready).1
    ≠ Normal LookupFunction.
Proof.
  split.
  - intros table Htable. vm_compute in Htable.
    injection Htable as <-. reflexivity.
  - vm_compute. discriminate.
Qed.

(** C5, amended. [t] never throws and leaves the state alone.  It
    returns the lookup function itself exactly when the key argument is
    falsy (missing, or the empty string); for every other key, present in
    a table or not, it returns the string that the engine's lookup
    [i18n.t(key, options)] gives. *)
Theorem t_contract (env : Env) (key : option string)
        (options : option Options) (s : State) :
  (key = None ∨ key = Some "" →
   t env key options s = (Normal LookupFunction, s))
  ∧ (∀ k, key = Some k → k ≠ "" →
          t env key options s
          = (Normal (Text (i18n_t env (i18n s) k options)), s)).
Proof.
  split.
  - intros [->| ->]; reflexivity.
  - intros k -> Hk. unfold t, truthy.
    destruct (String.eqb_spec k "") as [->|_]; [done|]. reflexivity.
Qed.

Lemma t_contract_witness :
  t Scenario.env_ok (Some "app.name") None Scenario.ready
  = (Normal (Text "NotesVault"), Scenario.ready).
Proof.
  apply (proj2 (t_contract Scenario.env_ok (Some "app.name") None
                           Scenario.ready) "app.name").
  - reflexivity.
  - discriminate.
Defined.

(** ** The change emitter *)

Lemma emitter_only_refl (s : State) : emitter_only s s.
Proof. by destruct s. Qed.

Lemma emitter_only_trans (s1 s2 s3 : State) :
  emitter_only s1 s2 → emitter_only s2 s3 → emitter_only s1 s3.
Proof. unfold emitter_only. intros -> ->. by destruct s1. Qed.

Section Emitter.

Variable env : Env.
Variable language : string.

Lemma run_action_frame (a : Action) (s : State) :
  (run_action a s).2 = set_listeners (listeners (run_action a s).2) s.
Proof.
  destruct a as [l|l|e]; simpl.
  - unfold unsubscribe. js_simp.
    destruct (Z.ltb (-1) (indexOf (listeners s) l)); by destruct s.
  - by destruct s.
  - by destruct s.
Qed.

Lemma run_actions_frame (body : list Action) (s : State) :
  (run_actions body s).2
  = set_listeners (listeners (run_actions body s).2) s.
Proof.
  revert s. induction body as [|a rest IH]; intros s; simpl.
  { by destruct s. }
  unfold bind. pose proof (run_action_frame a s) as Ha.
  destruct (run_action a s) as [[[]|e] s1]; simpl in *; [|exact Ha].
  rewrite IH at 1. rewrite Ha. by destruct s.
Qed.


Lemma run_actions_subscribes (body : list Action) (s : State) :
  forallb (λ a, negb (is_raise a) && negb (is_unsubscribe a)) body = true →
  ∃ extra, run_actions body s
           = (Normal tt, set_listeners (listeners s ++ extra) s).
Proof.
  revert s. induction body as [|a rest IH]; intros s Hbody.
  { exists []. simpl. rewrite app_nil_r. by destruct s. }
  simpl in Hbody. apply andb_true_iff in Hbody as [Ha Hrest].
  destruct a as [l|l|e]; simpl in Ha; try done.
  simpl. unfold bind at 1. unfold subscribe. js_simp.
  destruct (IH (set_listeners (listeners s ++ [l]) s) Hrest)
    as [extra Hrun].
  exists (l :: extra). rewrite Hrun. simpl.
  by rewrite <- app_assoc.
Qed.

Lemma call_listener_frame (l : Listener) (s : State) :
  emitter_only s (call_listener env l language s).2.
Proof.
  unfold call_listener, emitter_only. js_simp.
  rewrite run_actions_frame. by destruct s.
Qed.

Lemma forEach_from_frame (n k : nat) (s : State) :
  emitter_only s (forEach_from env n k language s).2.
Proof.
  revert k s. induction n as [|n IH]; intros k s; simpl.
  { apply emitter_only_refl. }
  js_simp.
  destruct (listeners s !! k) as [l|]; [|apply IH].
  pose proof (call_listener_frame l s) as Hcall.
  destruct (call_listener env l language s) as [[[]|e] s1]; simpl in *.
  - eapply emitter_only_trans; [exact Hcall | apply IH].
  - exact Hcall.
Qed.

Lemma emit_frame (s : State) :
  emitter_only s (emit env language s).2.
Proof. unfold emit. js_simp. apply forEach_from_frame. Qed.


(** While no callback removes a registration, the array only grows at
    its end, and the iteration meets the listeners registered at the
    start in order. *)
Lemma forEach_from_all (ls extra : list Listener) (n k : nat) (s : State) :
  (∀ l, l ∈ ls → keeps_registry env language l) →
  listeners s = ls ++ extra →
  (k + n)%nat = length ls →
  ∃ s', forEach_from env n k language s = (Normal tt, s')
        ∧ calls s' = calls s ++ map (λ l, (l, language)) (drop k ls)
        ∧ ∃ extra', listeners s' = ls ++ extra'.
Proof.
  intros Hkeep. revert extra k s.
  induction n as [|n IH]; intros extra k s Hls Hlen; simpl.
  { exists s. split_and!; [done| |by exists extra].
    rewrite drop_ge by lia. simpl. by rewrite app_nil_r. }
  js_simp. rewrite Hls.
  destruct (lookup_lt_is_Some_2 ls k) as [l Hl]; [lia|].
  rewrite (lookup_app_l_Some _ _ _ _ Hl).
  unfold call_listener. js_simp.
  assert (Hin : l ∈ ls) by (apply list_elem_of_lookup; eauto).
  destruct (run_actions_subscribes (listener_body env l language)
              (set_calls (calls s ++ [(l, language)]) s) (Hkeep l Hin))
    as [extra2 Hrun].
  rewrite Hrun. simpl. rewrite Hls.
  destruct (IH (extra ++ extra2) (S k)
               (set_listeners ((ls ++ extra) ++ extra2)
                  (set_calls (calls s ++ [(l, language)]) s)))
    as (s' & Hfor & Hcalls & Hextra).
  { simpl. by rewrite app_assoc. }
  { lia. }
  exists s'. split_and!; [exact Hfor| |exact Hextra].
  rewrite Hcalls. simpl.
  rewrite (drop_S ls l k Hl). simpl. by rewrite <- app_assoc.
Qed.

Lemma emit_all (s : State) :
  (∀ l, l ∈ listeners s → keeps_registry env language l) →
  ∃ s', emit env language s = (Normal tt, s')
        ∧ calls s' = calls s ++ map (λ l, (l, language)) (listeners s).
Proof.
  intros Hkeep. unfold emit. js_simp.
  destruct (forEach_from_all (listeners s) [] (length (listeners s)) 0 s)
    as (s' & Hfor & Hcalls & _); [done| by rewrite app_nil_r | lia |].
  exists s'. by rewrite Hfor, Hcalls, drop_0.
Qed.


End Emitter.




(** ** [changeLanguage] when the choice cannot be persisted *)





(** ** The translation cache *)

Lemma cache_only_refl (s : State) : cache_only s s.
Proof. by destruct s. Qed.

Lemma cache_only_trans (s1 s2 s3 : State) :
  cache_only s1 s2 → cache_only s2 s3 → cache_only s1 s3.
Proof. unfold cache_only. intros -> ->. by destruct s1. Qed.

Lemma append_inj (prefix a b : string) :
  prefix +:+ a = prefix +:+ b → a = b.
Proof.
  induction prefix as [|c prefix IH]; simpl; [done|].
  intros [= H]. by apply IH.
Qed.

Lemma languageFactories_defined (en fr : Localizations) (language : string) :
  language ∈ Object_values_AppLanguage →
  is_Some (languageFactories en fr language).
Proof.
  unfold Object_values_AppLanguage.
  rewrite !elem_of_cons, elem_of_nil. intros [->|[->|[]]]; by eexists.
Qed.

Section Cache.

Variable env : Env.
Variable translations : gmap string Localizations.

Lemma loadTranslations_step_cached (language : string) (s : State) :
  is_Some (translationCache s !! language) →
  loadTranslations_step env translations language s = (Normal tt, s).
Proof.
  intros [table Htable]. unfold loadTranslations_step. js_simp.
  by rewrite Htable.
Qed.

Lemma loadTranslations_step_uncached
      (language : string) (factory : unit → Localizations) (s : State) :
  translationCache s !! language = None →
  languageFactories (en_json env) (fr_json env) language = Some factory →
  loadTranslations_step env translations language s
  = (Normal tt,
     let cached :=
       set_translationCache
         (<[language
            := mergedTranslations translations language (factory tt)]>
            (translationCache s))
         s in
     match mmkv_set_error env (LANGUAGE_CACHE_PREFIX +:+ language) with
     | None =>
         set_localizationStorage
           (<[LANGUAGE_CACHE_PREFIX +:+ language
              := JSON_stringify env
                   (mergedTranslations translations language (factory tt))]>
              (localizationStorage s)) cached
     | Some e =>
         set_console
           (console s
            ++ [mkLog WARN ("Failed to cache translations for "
                            +:+ language +:+ ":") (Some e)]) cached
     end).
Proof.
  intros Hnone Hfactory.
  unfold loadTranslations_step, cacheTranslations, storage_set,
    console_warn, console_error, console_print.
  js_simp. rewrite Hnone, Hfactory.
  destruct (mmkv_set_error env (LANGUAGE_CACHE_PREFIX +:+ language));
    reflexivity.
Qed.

Lemma loadTranslations_step_normal (language : string) (s : State) :
  (loadTranslations_step env translations language s).1 = Normal tt.
Proof.
  destruct (translationCache s !! language) as [table|] eqn:Hcache.
  { by rewrite loadTranslations_step_cached. }
  destruct (languageFactories (en_json env) (fr_json env) language)
    as [factory|] eqn:Hfactory.
  { by rewrite (loadTranslations_step_uncached language factory). }
  unfold loadTranslations_step, console_error, console_print. js_simp.
  by rewrite Hcache, Hfactory.
Qed.

Lemma loadTranslations_step_frame (language : string) (s : State) :
  cache_only s (loadTranslations_step env translations language s).2.
Proof.
  destruct (translationCache s !! language) as [table|] eqn:Hcache.
  { rewrite loadTranslations_step_cached by done. apply cache_only_refl. }
  destruct (languageFactories (en_json env) (fr_json env) language)
    as [factory|] eqn:Hfactory.
  { rewrite (loadTranslations_step_uncached language factory) by done.
    simpl. destruct (mmkv_set_error env _); by destruct s. }
  unfold loadTranslations_step, console_error, console_print. js_simp.
  rewrite Hcache, Hfactory. by destruct s.
Qed.

(** A step leaves alone the entry and the mirror of every language
    other than its own, and of its own language when it is cached; no
    console line is lost. *)
Lemma loadTranslations_step_preserves
      (language other : string) (s : State) :
  other ≠ language ∨ is_Some (translationCache s !! other) →
  let s' := (loadTranslations_step env translations language s).2 in
  translationCache s' !! other = translationCache s !! other
  ∧ localizationStorage s' !! (LANGUAGE_CACHE_PREFIX +:+ other)
    = localizationStorage s !! (LANGUAGE_CACHE_PREFIX +:+ other)
  ∧ ∀ line, line ∈ console s → line ∈ console s'.
Proof.
  intros Hother.
  destruct (translationCache s !! language) as [table|] eqn:Hcache.
  { by rewrite loadTranslations_step_cached. }
  assert (Hne : other ≠ language).
  { destruct Hother as [|[table Htable]]; [done|]. congruence. }
  assert (Hkey : LANGUAGE_CACHE_PREFIX +:+ language
                 ≠ LANGUAGE_CACHE_PREFIX +:+ other).
  { intros Heq. by apply append_inj in Heq. }
  destruct (languageFactories (en_json env) (fr_json env) language)
    as [factory|] eqn:Hfactory.
  - rewrite (loadTranslations_step_uncached language factory) by done.
    simpl. destruct (mmkv_set_error env _); simpl.
    + rewrite lookup_insert_ne by done. split_and!; [done..|].
      intros line. rewrite elem_of_app. by left.
    + rewrite !lookup_insert_ne by done. done.
  - unfold loadTranslations_step, console_error, console_print. js_simp.
    rewrite Hcache, Hfactory. simpl. split_and!; [done..|].
    intros line. rewrite elem_of_app. by left.
Qed.

Lemma for_of_normal (languages : list string) (s : State) :
  (for_of languages (loadTranslations_step env translations) s).1
  = Normal tt.
Proof.
  revert s. induction languages as [|language rest IH]; intros s; [done|].
  simpl. unfold bind.
  pose proof (loadTranslations_step_normal language s) as Hstep.
  destruct (loadTranslations_step env translations language s) as [r s1].
  simpl in Hstep. subst r. apply IH.
Qed.

Lemma for_of_frame (languages : list string) (s : State) :
  cache_only s
    (for_of languages (loadTranslations_step env translations) s).2.
Proof.
  revert s. induction languages as [|language rest IH]; intros s.
  { apply cache_only_refl. }
  simpl. unfold bind.
  pose proof (loadTranslations_step_normal language s) as Hstep.
  pose proof (loadTranslations_step_frame language s) as Hframe.
  destruct (loadTranslations_step env translations language s) as [r s1].
  simpl in *. subst r. eapply cache_only_trans; [exact Hframe | apply IH].
Qed.

Lemma for_of_preserves (languages : list string) (other : string)
      (s : State) :
  other ∉ languages ∨ is_Some (translationCache s !! other) →
  let s' := (for_of languages (loadTranslations_step env translations) s).2
  in
  translationCache s' !! other = translationCache s !! other
  ∧ localizationStorage s' !! (LANGUAGE_CACHE_PREFIX +:+ other)
    = localizationStorage s !! (LANGUAGE_CACHE_PREFIX +:+ other)
  ∧ ∀ line, line ∈ console s → line ∈ console s'.
Proof.
  revert s. induction languages as [|language rest IH]; intros s Hother.
  { done. }
  simpl. unfold bind.
  pose proof (loadTranslations_step_normal language s) as Hstep.
  destruct (loadTranslations_step_preserves language other s)
    as (Hc & Hs & Hl).
  { destruct Hother as [Hout|]; [left|by right].
    intros ->. apply Hout. left. }
  destruct (loadTranslations_step env translations language s) as [r s1].
  simpl in *. subst r.
  destruct (IH s1) as (Hc' & Hs' & Hl').
  { destruct Hother as [Hout|Hin]; [left|right].
    - intros Hin. apply Hout. by right.
    - by rewrite Hc. }
  rewrite Hc', Hs', Hc, Hs. split_and!; [done..|]. auto.
Qed.

(** What one pass over [languages] leaves for a language of the list
    that was not cached. *)
Lemma for_of_entry (languages : list string) (language : string)
      (factory : unit → Localizations) (s : State) :
  language ∈ languages →
  translationCache s !! language = None →
  languageFactories (en_json env) (fr_json env) language = Some factory →
  let s' := (for_of languages (loadTranslations_step env translations) s).2
  in
  translationCache s' !! language
  = Some (mergedTranslations translations language (factory tt))
  ∧ match mmkv_set_error env (LANGUAGE_CACHE_PREFIX +:+ language) with
    | None =>
        localizationStorage s' !! (LANGUAGE_CACHE_PREFIX +:+ language)
        = Some (JSON_stringify env
                  (mergedTranslations translations language (factory tt)))
    | Some e =>
        localizationStorage s' !! (LANGUAGE_CACHE_PREFIX +:+ language)
        = localizationStorage s !! (LANGUAGE_CACHE_PREFIX +:+ language)
        ∧ mkLog WARN ("Failed to cache translations for "
                      +:+ language +:+ ":") (Some e) ∈ console s'
    end.
Proof.
  intros Hin Hnone Hfactory. revert s Hnone.
  induction languages as [|first rest IH]; intros s Hnone.
  { by apply elem_of_nil in Hin. }
  simpl. unfold bind.
  destruct (decide (language = first)) as [<-|Hne].
  - rewrite (loadTranslations_step_uncached language factory) by done.
    cbv zeta.
    set (s1 := match mmkv_set_error env _ with
               | Some e => _ | None => _ end).
    assert (Hcached : translationCache s1 !! language
                      = Some (mergedTranslations translations language
                                (factory tt))).
    { subst s1. destruct (mmkv_set_error env _); simpl;
        apply lookup_insert_eq. }
    destruct (for_of_preserves rest language s1) as (Hc & Hs & Hl).
    { right. by rewrite Hcached. }
    rewrite Hc, Hs. split; [exact Hcached|].
    subst s1. destruct (mmkv_set_error env _) as [e|]; simpl in *.
    + split; [done|]. apply Hl. rewrite elem_of_app. right. left.
    + apply lookup_insert_eq.
  - apply elem_of_cons in Hin as [|Hin]; [done|].
    pose proof (loadTranslations_step_normal first s) as Hstep.
    destruct (loadTranslations_step_preserves first language s)
      as (Hc & Hs & Hl); [by left|].
    destruct (loadTranslations_step env translations first s) as [r s1].
    simpl in *. subst r.
    destruct (IH Hin s1) as (Hentry & Hmirror); [by rewrite Hc|].
    split; [exact Hentry|].
    destruct (mmkv_set_error env _) as [e|]; [|exact Hmirror].
    destruct Hmirror as [Hstore Hline]. by rewrite Hstore, Hs.
Qed.


Lemma loadTranslations_fills (language : string) (s : State) :
  language ∈ Object_values_AppLanguage →
  is_Some (translationCache (loadTranslations env translations s).2
             !! language).
Proof.
  intros Hin. unfold loadTranslations.
  destruct (translationCache s !! language) as [table|] eqn:Hcache.
  - destruct (for_of_preserves Object_values_AppLanguage language s)
      as (Hc & _); [right; by rewrite Hcache|].
    rewrite Hc, Hcache. by eexists.
  - destruct (languageFactories_defined (en_json env) (fr_json env)
                language Hin) as [factory Hfactory].
    destruct (for_of_entry Object_values_AppLanguage language factory s)
      as (Hentry & _); [done..|].
    rewrite Hentry. by eexists.
Qed.

End Cache.



(** C7. For a supported language that is not cached, one pass of
    [loadTranslations] returns normally and leaves in the in-memory map
    the table of the language's factory, with the caller's table for that
    language spread over it when one was supplied: a key of the caller's
    table has the caller's value, any other key the factory's.  When the
    write to the durable store goes through, the store holds the
    serialized entry under [lang_cache_<language>]; when it fails, the
    store keeps what it had under that key, a warning is printed, and the
    in-memory entry is the same. *)
Theorem loadTranslations_entry
        (env : Env) (translations : gmap string Localizations)
        (language : string) (s : State) :
  language ∈ Object_values_AppLanguage →
  translationCache s !! language = None →
  ∃ factory s',
    languageFactories (en_json env) (fr_json env) language = Some factory
    ∧ loadTranslations env translations s = (Normal tt, s')
    ∧ translationCache s' !! language
      = Some (mergedTranslations translations language (factory tt))
    ∧ (∀ key,
         mergedTranslations translations language (factory tt) !! key
         = match translations !! language ≫= (λ override, override !! key)
           with
           | Some v => Some v
           | None => factory tt !! key
           end)
    ∧ match mmkv_set_error env (LANGUAGE_CACHE_PREFIX +:+ language) with
      | None =>
          localizationStorage s' !! (LANGUAGE_CACHE_PREFIX +:+ language)
          = Some (JSON_stringify env
                    (mergedTranslations translations language (factory tt)))
      | Some e =>
          localizationStorage s' !! (LANGUAGE_CACHE_PREFIX +:+ language)
          = localizationStorage s !! (LANGUAGE_CACHE_PREFIX +:+ language)
          ∧ mkLog WARN ("Failed to cache translations for "
                        +:+ language +:+ ":") (Some e) ∈ console s'
      end.
Proof.
  intros Hin Hnone.
  destruct (languageFactories_defined (en_json env) (fr_json env)
              language Hin) as [factory Hfactory].
  exists factory, (loadTranslations env translations s).2.
  pose proof (for_of_normal env translations Object_values_AppLanguage s)
    as Hnormal.
  destruct (for_of_entry env translations Object_values_AppLanguage
              language factory s Hin Hnone Hfactory) as [Hentry Hmirror].
  fold (loadTranslations env translations) in Hnormal, Hentry, Hmirror.
  split_and!.
  - exact Hfactory.
  - rewrite <- Hnormal. by destruct (loadTranslations env translations s).
  - exact Hentry.
  - intros key. unfold mergedTranslations.
    destruct (translations !! language) as [override|]; simpl; [|done].
    apply spread_lookup.
  - exact Hmirror.
Qed.

Lemma loadTranslations_entry_witness :
  ∃ factory s',
    languageFactories Scenario.en Scenario.fr "fr" = Some factory
    ∧ loadTranslations Scenario.env_readonly Scenario.overrides
        (initial_state ∅) = (Normal tt, s')
    ∧ translationCache s' !! "fr"
      = Some (mergedTranslations Scenario.overrides "fr" (factory tt))
    ∧ (∀ key,
         mergedTranslations Scenario.overrides "fr" (factory tt) !! key
         = match Scenario.overrides !! "fr"
                 ≫= (λ override : Localizations, override !! key)
           with
           | Some v => Some v
           | None => factory tt !! key
           end)
    ∧ (localizationStorage s' !! "lang_cache_fr"
       = localizationStorage (initial_state ∅) !! "lang_cache_fr"
       ∧ mkLog WARN "Failed to cache translations for fr:"
               (Some (Error "write failed")) ∈ console s').
Proof.
  apply (loadTranslations_entry Scenario.env_readonly Scenario.overrides
           "fr" (initial_state ∅)).
  - apply (bool_decide_unpack _). vm_compute. exact I.
  - reflexivity.
Defined.

(** ** [initialize] when the engine fails *)

Lemma cache_only_frame (s s' : State) :
  cache_only s s' →
  currentLanguage s' = currentLanguage s
  ∧ isInitialized s' = isInitialized s
  ∧ listeners s' = listeners s
  ∧ i18n s' = i18n s
  ∧ calls s' = calls s.
Proof. unfold cache_only. intros ->. by simpl. Qed.

(** The run of [initialize] on a facade that is not initialized: the
    state just before the engine is set up differs from the initial one
    by the cache, the store and the console, and the outcome is the
    engine's. *)
Lemma initialize_run
      (env : Env) (translations : gmap string Localizations)
      (allowLanguageOverride : bool) (s : State) :
  isInitialized s = false →
  ∃ options s2,
    isInitialized s2 = false
    ∧ currentLanguage s2 = currentLanguage s
    ∧ listeners s2 = listeners s
    ∧ initialize env translations allowLanguageOverride s
      = match i18n_init_error env options with
        | Some e =>
            (Throw e,
             set_console
               (console s2
                ++ [mkLog ERROR "Failed to initialize localization:"
                          (Some e)]) s2)
        | None =>
            (Normal tt,
             set_console
               (console s2
                ++ [mkLog LOG ("Localization initialized with language: "
                               +:+ lng options) None])
               (set_isInitialized true
                  (set_currentLanguage (lng options)
                     (set_i18n (mkI18n (Some options) (Some (lng options)))
                               s2))))
        end.
Proof.
  intros Hfresh. unfold initialize.
  unfold bind at 1, gets at 1. rewrite Hfresh.
  destruct (getInitialLanguage_run env allowLanguageOverride s)
    as (s1 & Hresolve & Hprinted).
  apply printed_frame in Hprinted as (Hl1 & Hi1 & _ & _ & Hs1 & _ & _).
  pose proof (for_of_normal env translations Object_values_AppLanguage s1)
    as Hnormal.
  pose proof (for_of_frame env translations Object_values_AppLanguage s1)
    as Hframe.
  fold (loadTranslations env translations) in Hnormal, Hframe.
  apply cache_only_frame in Hframe as (Hl2 & Hi2 & Hs2 & _ & _).
  unfold try_catch, i18n_init, buildI18nResources, console_error,
    console_log, console_print.
  unfold bind at 1. rewrite Hresolve.
  unfold bind at 1.
  destruct (loadTranslations env translations s1) as [r s2].
  simpl in Hnormal. subst r. js_simp.
  match goal with
  | |- context [i18n_init_error env ?options] => exists options, s2
  end.
  split_and!; [congruence..|].
  destruct (i18n_init_error env _); reflexivity.
Qed.

(** ** [clearCache] and [getCacheStats] *)

(** Whether or not the store can be wiped, [clearCache] returns
    normally with an empty in-memory map, and the facade, the engine and
    the subscribers are as before. *)
Lemma clearCache_memory (env : Env) (s : State) :
  ∃ s', clearCache env s = (Normal tt, s')
        ∧ translationCache s' = ∅
        ∧ currentLanguage s' = currentLanguage s
        ∧ isInitialized s' = isInitialized s
        ∧ listeners s' = listeners s
        ∧ i18n s' = i18n s
        ∧ calls s' = calls s
        ∧ localizationStorage s'
          = match mmkv_clearAll_error env with
            | None => ∅
            | Some _ => localizationStorage s
            end.
Proof.
  unfold clearCache, storage_clearAll, console_log, console_error,
    console_print.
  destruct (mmkv_clearAll_error env); js_simp;
    (eexists; split; [reflexivity | by simpl]).
Qed.

(** C10. With a durable store whose [clearAll] and [getAllKeys] go
    through, [clearCache] returns normally, the in-memory map and the
    durable store are both empty afterwards, [getCacheStats] then reports
    zero cached languages and zero stored keys, and the active language,
    the initialized flag and the subscriber list are as before. *)
Theorem clearCache_then_stats (env : Env) (s : State) :
  mmkv_clearAll_error env = None →
  mmkv_getAllKeys_error env = None →
  ∃ s', clearCache env s = (Normal tt, s')
        ∧ translationCache s' = ∅
        ∧ localizationStorage s' = ∅
        ∧ getCacheStats env s' = (Normal (mkStats 0 0), s')
        ∧ currentLanguage s' = currentLanguage s
        ∧ isInitialized s' = isInitialized s
        ∧ listeners s' = listeners s.
Proof.
  intros Hclear Hkeys.
  destruct (clearCache_memory env s)
    as (s' & Hrun & Hcache & Hlang & Hinit & Hls & _ & _ & Hstore).
  rewrite Hclear in Hstore.
  exists s'. split_and!; try done.
  unfold getCacheStats, storage_getAllKeys. rewrite Hkeys. js_simp.
  rewrite Hcache, Hstore, map_size_empty, map_to_list_empty. reflexivity.
Qed.

Lemma clearCache_then_stats_witness :
  ∃ s', clearCache Scenario.env_ok
          (set_listeners [1%nat; 2%nat] Scenario.ready) = (Normal tt, s')
        ∧ translationCache s' = ∅
        ∧ localizationStorage s' = ∅
        ∧ getCacheStats Scenario.env_ok s' = (Normal (mkStats 0 0), s')
        ∧ currentLanguage s' = "en"
        ∧ isInitialized s' = true
        ∧ listeners s' = [1%nat; 2%nat].
Proof.
  apply (clearCache_then_stats Scenario.env_ok
           (set_listeners [1%nat; 2%nat] Scenario.ready)); reflexivity.
Defined.

(** * Further properties of the code *)

(** ** The completeness audit of the registry *)

Section RegistryAudit.

Variables en fr : Localizations.

Lemma missing_lookup (raw : Localizations) (key : string) :
  filter (λ kv : string * string, bool_decide (kv.1 ∉ dom raw)) en !! key
  = match raw !! key with Some _ => None | None => en !! key end.
Proof.
  rewrite map_lookup_filter.
  destruct (en !! key) as [v|] eqn:Hen; simpl.
  - destruct (raw !! key) as [w|] eqn:Hraw.
    + rewrite option_guard_False; [done|]. simpl.
      intros Hout%bool_decide_unpack. apply Hout, elem_of_dom. by eexists.
    + rewrite option_guard_True; [done|]. simpl.
      apply bool_decide_pack. by apply not_elem_of_dom.
  - by destruct (raw !! key).
Qed.

(** X1. The reference language misses none of its own strings. *)
Theorem listMissingStrings_reference_empty :
  listMissingStringsForLanguage en fr AppLanguage_en = Some ∅.
Proof.
  unfold listMissingStringsForLanguage. simpl. f_equal.
  apply map_eq. intros key. rewrite missing_lookup, lookup_empty.
  by destruct (en !! key).
Qed.

(** X2. For a supported language the audit returns exactly the entries
    of the reference table whose key the raw table of the language does
    not have, each with the reference value. *)
Theorem listMissingStrings_lookup (source : string) :
  source ∈ Object_values_AppLanguage →
  ∃ raw missing,
    languageSource en fr source = Some raw
    ∧ listMissingStringsForLanguage en fr source = Some missing
    ∧ ∀ key, missing !! key
             = match raw !! key with Some _ => None | None => en !! key end.
Proof.
  unfold Object_values_AppLanguage.
  rewrite !elem_of_cons, elem_of_nil. intros [->|[->|[]]].
  - exists en. eexists. split_and!; [reflexivity..|].
    intros key. apply missing_lookup.
  - exists fr. eexists. split_and!; [reflexivity..|].
    intros key. apply missing_lookup.
Qed.

(** X3. The table of the French factory is the raw French table
    completed by exactly the strings the audit reports missing; the two
    parts share no key. *)
Theorem factory_completes_raw_table :
  ∃ factory missing,
    languageFactories en fr AppLanguage_fr = Some factory
    ∧ listMissingStringsForLanguage en fr AppLanguage_fr = Some missing
    ∧ fr ##ₘ missing
    ∧ factory tt = fr ∪ missing.
Proof.
  eexists. eexists. split_and!; [reflexivity..| |].
  - apply map_disjoint_spec. intros key v w Hfr Hmissing.
    rewrite missing_lookup, Hfr in Hmissing. done.
  - simpl. unfold spread. apply map_eq. intros key.
    rewrite !lookup_union, missing_lookup.
    destruct (fr !! key); [by destruct (en !! key)|done].
Qed.

(** X4. The audit of French comes back empty exactly when the raw
    French table has every key of the reference table. *)
Theorem listMissingStrings_empty_iff_complete :
  listMissingStringsForLanguage en fr AppLanguage_fr = Some ∅
  ↔ dom en ⊆ dom fr.
Proof.
  unfold listMissingStringsForLanguage. simpl. split.
  - intros [= Hempty] key Hkey.
    apply elem_of_dom in Hkey as [v Hv].
    assert (Hlookup := missing_lookup fr key).
    rewrite Hempty, lookup_empty, Hv in Hlookup.
    apply elem_of_dom. destruct (fr !! key); [by eexists|done].
  - intros Hsub. f_equal. apply map_eq. intros key.
    rewrite missing_lookup, lookup_empty.
    destruct (fr !! key) as [w|] eqn:Hfr; [done|].
    destruct (en !! key) as [v|] eqn:Hen; [|done].
    assert (Hin : key ∈ dom fr) by (apply Hsub, elem_of_dom; by eexists).
    apply elem_of_dom in Hin as [w Hw]. congruence.
Qed.

End RegistryAudit.

Lemma listMissingStrings_lookup_witness :
  ∃ raw missing,
    languageSource Scenario.en Scenario.fr "fr" = Some raw
    ∧ listMissingStringsForLanguage Scenario.en Scenario.fr "fr"
      = Some missing
    ∧ ∀ key, missing !! key
             = match raw !! key with
               | Some _ => None
               | None => Scenario.en !! key
               end.
Proof.
  apply (listMissingStrings_lookup Scenario.en Scenario.fr "fr").
  apply (bool_decide_unpack _). vm_compute. exact I.
Defined.

(** ** Subscribing and unsubscribing *)

Lemma indexOf_not_elem_of (ls : list Listener) (l : Listener) :
  l ∉ ls → indexOf ls l = -1.
Proof.
  induction ls as [|x rest IH]; intros Hout; [done|].
  apply not_elem_of_cons in Hout as [Hne Hrest]. simpl.
  destruct (Nat.eqb_spec x l) as [->|_]; [done|].
  by rewrite (IH Hrest).
Qed.

Lemma indexOf_middle (l1 l2 : list Listener) (l : Listener) :
  l ∉ l1 → indexOf (l1 ++ l :: l2) l = Z.of_nat (length l1).
Proof.
  induction l1 as [|x rest IH]; intros Hout; simpl.
  { by rewrite Nat.eqb_refl. }
  apply not_elem_of_cons in Hout as [Hne Hrest].
  destruct (Nat.eqb_spec x l) as [->|_]; [done|].
  rewrite (IH Hrest).
  destruct (Z.ltb_spec (-1) (Z.of_nat (length rest))); lia.
Qed.

Lemma splice1_middle (l1 l2 : list Listener) (l : Listener) :
  splice1 (l1 ++ l :: l2) (Z.of_nat (length l1)) = l1 ++ l2.
Proof.
  unfold splice1. rewrite Nat2Z.id, take_app_length.
  replace (S (length l1)) with (length l1 + 1)%nat by lia.
  rewrite <- drop_drop, drop_app_length. reflexivity.
Qed.

Lemma unsubscribe_absent (l : Listener) (s : State) :
  l ∉ listeners s → unsubscribe l s = (Normal tt, s).
Proof.
  intros Hout. unfold unsubscribe. js_simp.
  by rewrite (indexOf_not_elem_of _ _ Hout).
Qed.

Lemma unsubscribe_present (l : Listener) (l1 l2 : list Listener)
      (s : State) :
  listeners s = l1 ++ l :: l2 → l ∉ l1 →
  unsubscribe l s = (Normal tt, set_listeners (l1 ++ l2) s).
Proof.
  intros Hls Hout. unfold unsubscribe. js_simp.
  rewrite Hls, (indexOf_middle l1 l2 l Hout), splice1_middle.
  destruct (Z.ltb_spec (-1) (Z.of_nat (length l1))); [done|lia].
Qed.

(** X5. [indexOf] answers [-1] exactly for a callback that is not in
    the array, and otherwise the position of its first occurrence. *)
Theorem indexOf_first_occurrence (ls : list Listener) (l : Listener) :
  (l ∉ ls → indexOf ls l = -1)
  ∧ (l ∈ ls →
     ∃ i : nat, indexOf ls l = Z.of_nat i
                ∧ ls !! i = Some l
                ∧ ∀ j : nat, (j < i)%nat → ls !! j ≠ Some l).
Proof.
  split; [apply indexOf_not_elem_of|].
  intros Hin. apply list_elem_of_split_l in Hin as (l1 & l2 & -> & Hout).
  exists (length l1). split_and!.
  - by apply indexOf_middle.
  - by rewrite list_lookup_middle.
  - intros j Hj Hlookup. rewrite lookup_app_l in Hlookup by done.
    apply Hout. apply list_elem_of_lookup. by exists j.
Qed.

(** X6. The function returned by [subscribe] does nothing when its
    callback is no longer registered; otherwise it removes the first
    occurrence of the callback, and only that: the callbacks before and
    after it stay, in their order. *)
Theorem unsubscribe_removes_first (l : Listener) (s : State) :
  (l ∉ listeners s → unsubscribe l s = (Normal tt, s))
  ∧ (l ∈ listeners s →
     ∃ l1 l2, listeners s = l1 ++ l :: l2
              ∧ (l ∉ l1)
              ∧ unsubscribe l s = (Normal tt, set_listeners (l1 ++ l2) s)).
Proof.
  split; [apply unsubscribe_absent|].
  intros Hin. apply list_elem_of_split_l in Hin as (l1 & l2 & Hls & Hout).
  exists l1, l2. split_and!; [done..|]. by apply unsubscribe_present.
Qed.

(** X7. Registering a callback that was not registered and then
    calling the returned function gives back the state as it was, and a
    second call of that function changes nothing.  For a callback that is
    already registered the returned function removes the older
    registration, so the callback ends up last in the order. *)
Theorem subscribe_unsubscribe (l : Listener) (s : State) :
  (l ∉ listeners s →
   unsubscribe l (subscribe l s).2 = (Normal tt, s)
   ∧ unsubscribe l (unsubscribe l (subscribe l s).2).2 = (Normal tt, s))
  ∧ (∀ l1 l2, listeners s = l1 ++ l :: l2 → l ∉ l1 →
       unsubscribe l (subscribe l s).2
       = (Normal tt, set_listeners (l1 ++ l2 ++ [l]) s)).
Proof.
  split.
  - intros Hout.
    assert (Hround : unsubscribe l (subscribe l s).2 = (Normal tt, s)).
    { rewrite (unsubscribe_present l (listeners s) []); [|by simpl|done].
      rewrite app_nil_r. by destruct s. }
    split; [exact Hround|]. rewrite Hround. simpl.
    by apply unsubscribe_absent.
  - intros l1 l2 Hls Hout.
    rewrite (unsubscribe_present l l1 (l2 ++ [l])); [| |done].
    + simpl. by destruct s.
    + simpl. rewrite Hls. by rewrite <- app_assoc.
Qed.

Lemma subscribe_unsubscribe_witness :
  unsubscribe 3%nat (subscribe 3%nat Scenario.two_subscribers).2
  = (Normal tt, Scenario.two_subscribers)
  ∧ unsubscribe 1%nat (subscribe 1%nat Scenario.two_subscribers).2
    = (Normal tt,
       set_listeners [2%nat; 1%nat] Scenario.two_subscribers).
Proof.
  split.
  - apply (proj1 (subscribe_unsubscribe 3%nat Scenario.two_subscribers)).
    apply (bool_decide_unpack _). vm_compute. exact I.
  - apply (proj2 (subscribe_unsubscribe 1%nat Scenario.two_subscribers)
             [] [2%nat]).
    + reflexivity.
    + apply not_elem_of_nil.
Defined.

(** ** What an emit can and cannot do *)

Section EmitBounds.

Variable env : Env.
Variable language : string.

Lemma call_listener_calls (l : Listener) (s : State) :
  calls (call_listener env l language s).2 = calls s ++ [(l, language)].
Proof.
  unfold call_listener. js_simp. by rewrite run_actions_frame.
Qed.

Lemma forEach_from_calls (n k : nat) (s : State) :
  ∃ new, calls (forEach_from env n k language s).2 = calls s ++ new
         ∧ (length new ≤ n)%nat
         ∧ ∀ c, c ∈ new → c.2 = language.
Proof.
  revert k s. induction n as [|n IH]; intros k s; simpl.
  { exists []. split_and!; [by rewrite app_nil_r | done |].
    intros c Hc. by apply elem_of_nil in Hc. }
  js_simp. destruct (listeners s !! k) as [l|].
  - pose proof (call_listener_calls l s) as Hcall.
    destruct (call_listener env l language s) as [[[]|e] s1]; simpl in *.
    + destruct (IH (S k) s1) as (new & Hcalls & Hlen & Hlang).
      exists ((l, language) :: new). split_and!.
      * rewrite Hcalls, Hcall. by rewrite <- app_assoc.
      * simpl. lia.
      * intros c [->|Hc]%elem_of_cons; [done|by apply Hlang].
    + exists [(l, language)]. split_and!; [done|simpl; lia|].
      by intros c ->%list_elem_of_singleton.
  - destruct (IH (S k) s) as (new & Hcalls & Hlen & Hlang).
    exists new. split_and!; [done|lia|done].
Qed.

(** The iteration reaches a callback that throws at once: the callbacks
    before it have been called, it has been called, and the error comes
    out with none of the later ones called. *)
Lemma forEach_from_raise (l1 l2 extra : list Listener) (l : Listener)
      (e : Exn) (rest : list Action) (n k : nat) (s : State) :
  (∀ x, x ∈ l1 → keeps_registry env language x) →
  listener_body env l language = Raise e :: rest →
  listeners s = l1 ++ l :: l2 ++ extra →
  (k ≤ length l1)%nat → (length l1 < k + n)%nat →
  ∃ s', forEach_from env n k language s = (Throw e, s')
        ∧ calls s' = calls s ++ map (λ x, (x, language)) (drop k l1)
                     ++ [(l, language)].
Proof.
  intros Hkeep Hbody. revert extra k s.
  induction n as [|n IH]; intros extra k s Hls Hk Hn; [lia|].
  simpl. js_simp. rewrite Hls.
  destruct (decide (k = length l1)) as [->|Hne].
  - rewrite list_lookup_middle by done.
    unfold call_listener. js_simp. rewrite Hbody. simpl.
    eexists. split; [reflexivity|]. simpl.
    by rewrite drop_all.
  - destruct (lookup_lt_is_Some_2 l1 k) as [x Hx]; [lia|].
    rewrite (lookup_app_l_Some _ _ _ _ Hx).
    unfold call_listener. js_simp.
    assert (Hin : x ∈ l1) by (apply list_elem_of_lookup; eauto).
    destruct (run_actions_subscribes (listener_body env x language)
                (set_calls (calls s ++ [(x, language)]) s) (Hkeep x Hin))
      as [extra2 Hrun].
    rewrite Hrun. simpl. rewrite Hls.
    destruct (IH (extra ++ extra2) (S k)
                 (set_listeners ((l1 ++ l :: l2 ++ extra) ++ extra2)
                    (set_calls (calls s ++ [(x, language)]) s)))
      as (s' & Hfor & Hcalls).
    { simpl. rewrite <- !app_assoc. simpl. by rewrite <- !app_assoc. }
    { lia. }
    { lia. }
    exists s'. split; [exact Hfor|].
    rewrite Hcalls. simpl. rewrite (drop_S l1 x k Hx). simpl.
    by rewrite <- !app_assoc.
Qed.

(** X8. Whatever the callbacks do, succeed or throw, one [emit] makes
    at most as many calls as there were subscribers when it began, keeps
    the record of earlier calls, and passes the emitted language to each
    callback it calls. *)
Theorem emit_calls_bounded (s : State) :
  ∃ new, calls (emit env language s).2 = calls s ++ new
         ∧ (length new ≤ length (listeners s))%nat
         ∧ ∀ c, c ∈ new → c.2 = language.
Proof. unfold emit. js_simp. apply forEach_from_calls. Qed.

(** X9. A callback that throws ends the emit: with the callbacks
    registered before it well behaved, they are called in order, the
    throwing one is called, its error comes out of [emit], and no
    callback registered after it is called. *)
Theorem emit_stops_at_throw (l1 l2 : list Listener) (l : Listener)
        (e : Exn) (rest : list Action) (s : State) :
  listeners s = l1 ++ l :: l2 →
  (∀ x, x ∈ l1 → keeps_registry env language x) →
  listener_body env l language = Raise e :: rest →
  ∃ s', emit env language s = (Throw e, s')
        ∧ calls s' = calls s ++ map (λ x, (x, language)) l1
                     ++ [(l, language)].
Proof.
  intros Hls Hkeep Hbody. unfold emit. js_simp.
  destruct (forEach_from_raise l1 l2 [] l e rest
              (length (listeners s)) 0 s Hkeep Hbody)
    as (s' & Hfor & Hcalls).
  - by rewrite app_nil_r.
  - lia.
  - rewrite Hls, length_app. simpl. lia.
  - exists s'. by rewrite Hfor, Hcalls, drop_0.
Qed.

(** X10. Once its unsubscribe function has been called, a callback
    that was registered once is not called by the next emit, while the
    other subscribers, well behaved, are all called in their order. *)
Theorem unsubscribed_listener_not_called
        (l1 l2 : list Listener) (l : Listener) (s : State) :
  listeners s = l1 ++ l :: l2 →
  l ∉ l1 → l ∉ l2 →
  (∀ x, x ∈ l1 ++ l2 → keeps_registry env language x) →
  ∃ s', emit env language (unsubscribe l s).2 = (Normal tt, s')
        ∧ calls s' = calls s ++ map (λ x, (x, language)) (l1 ++ l2)
        ∧ (l, language) ∉ map (λ x, (x, language)) (l1 ++ l2).
Proof.
  intros Hls Hout1 Hout2 Hkeep.
  rewrite (unsubscribe_present l l1 l2 s Hls Hout1). simpl.
  destruct (emit_all env language (set_listeners (l1 ++ l2) s))
    as (s' & Hemit & Hcalls); [done|].
  exists s'. split_and!; [done..|].
  intros Hin. apply list_elem_of_fmap in Hin as (x & [= <-] & Hx).
  apply elem_of_app in Hx as [|]; done.
Qed.

End EmitBounds.

Lemma emit_stops_at_throw_witness :
  ∃ s', emit Scenario.env_thrower "fr" Scenario.three_subscribers
        = (Throw (Error "listener failed"), s')
        ∧ calls s' = calls Scenario.three_subscribers
                     ++ map (λ x, (x, "fr")) [1%nat] ++ [(2%nat, "fr")].
Proof.
  apply (emit_stops_at_throw Scenario.env_thrower "fr" [1%nat] [3%nat]
           2%nat (Error "listener failed") [] Scenario.three_subscribers).
  - reflexivity.
  - intros x Hx. apply list_elem_of_singleton in Hx as ->. reflexivity.
  - reflexivity.
Defined.

Lemma unsubscribed_listener_not_called_witness :
  ∃ s', emit Scenario.env_ok "fr"
          (unsubscribe 1%nat Scenario.two_subscribers).2 = (Normal tt, s')
        ∧ calls s' = calls Scenario.two_subscribers
                     ++ map (λ x, (x, "fr")) ([] ++ [2%nat])
        ∧ (1%nat, "fr") ∉ map (λ x, (x, "fr")) ([] ++ [2%nat]).
Proof.
  apply (unsubscribed_listener_not_called Scenario.env_ok "fr" [] [2%nat]
           1%nat Scenario.two_subscribers).
  - reflexivity.
  - apply not_elem_of_nil.
  - apply (bool_decide_unpack _). vm_compute. exact I.
  - intros x _. reflexivity.
Defined.

(** ** [changeLanguage], step by step *)

Section ChangeLanguage.

Variable env : Env.

(** The run of [changeLanguage] for a supported language that the
    engine accepts, up to the emit and after it. *)
Lemma changeLanguage_run (language : string) (s : State) :
  language ∈ Object_values_AppLanguage →
  i18n_changeLanguage_error env language = None →
  changeLanguage env language s
  = let switched :=
      set_currentLanguage language
        (set_i18n (mkI18n (i18n_options (i18n s)) (Some language)) s) in
    let saved :=
      match mmkv_set_error env CURRENT_LANGUAGE with
      | None =>
          set_localizationStorage
            (<[CURRENT_LANGUAGE := language]> (localizationStorage s))
            switched
      | Some e =>
          set_console
            (console s ++ [mkLog ERROR "Failed to save language:" (Some e)])
            switched
      end in
    match emit env language saved with
    | (Normal _, s3) =>
        (Normal tt,
         set_console
           (console s3
            ++ [mkLog LOG ("Language changed to: " +:+ language) None]) s3)
    | (Throw e, s3) =>
        (Throw e,
         set_console
           (console s3
            ++ [mkLog ERROR "Failed to change language:" (Some e)]) s3)
    end.
Proof.
  intros Hsup Hengine. unfold changeLanguage.
  rewrite includes_elem_of, bool_decide_eq_true_2 by done. simpl.
  unfold i18n_changeLanguage, saveLanguage, storage_set, console_error,
    console_log, console_print.
  rewrite Hengine. js_simp.
  destruct (mmkv_set_error env CURRENT_LANGUAGE); simpl;
    destruct (emit env language _) as [[[]|e'] s3]; reflexivity.
Qed.

(** X11. For a supported language, with an engine that switches, a
    store that takes the write and well-behaved callbacks,
    [changeLanguage] returns normally; the active language and the
    engine's language are the target, the store holds the target under
    [current_language] and is otherwise as before, every subscriber has
    been called once in order, and the translation cache and the
    initialized flag are untouched. *)
Theorem changeLanguage_success (language : string) (s : State) :
  language ∈ Object_values_AppLanguage →
  i18n_changeLanguage_error env language = None →
  mmkv_set_error env CURRENT_LANGUAGE = None →
  (∀ l, l ∈ listeners s → keeps_registry env language l) →
  ∃ s', changeLanguage env language s = (Normal tt, s')
        ∧ currentLanguage s' = language
        ∧ i18n_language (i18n s') = Some language
        ∧ localizationStorage s'
          = <[CURRENT_LANGUAGE := language]> (localizationStorage s)
        ∧ calls s' = calls s ++ map (λ l, (l, language)) (listeners s)
        ∧ translationCache s' = translationCache s
        ∧ isInitialized s' = isInitialized s.
Proof.
  intros Hsup Hengine Hset Hkeep.
  rewrite (changeLanguage_run language s Hsup Hengine), Hset. cbv zeta.
  set (saved := set_localizationStorage _ _).
  destruct (emit_all env language saved) as (s3 & Hemit & Hcalls).
  { exact Hkeep. }
  pose proof (emit_frame env language saved) as Hframe.
  rewrite Hemit in *. simpl in Hframe.
  eexists. split; [reflexivity|]. simpl.
  rewrite Hframe, Hcalls. by simpl.
Qed.

(** X12. When the engine refuses the switch, [changeLanguage] prints
    the error and rethrows it, and that console line is the only change:
    the active language is the old one, nothing is written to the store
    and no subscriber is called. *)
Theorem changeLanguage_engine_failure (language : string) (e : Exn)
        (s : State) :
  language ∈ Object_values_AppLanguage →
  i18n_changeLanguage_error env language = Some e →
  changeLanguage env language s
  = (Throw e,
     set_console
       (console s ++ [mkLog ERROR "Failed to change language:" (Some e)])
       s).
Proof.
  intros Hsup Hengine. unfold changeLanguage.
  rewrite includes_elem_of, bool_decide_eq_true_2 by done. simpl.
  unfold i18n_changeLanguage, console_error, console_print.
  rewrite Hengine. reflexivity.
Qed.

(** X13. A subscriber that throws makes [changeLanguage] fail after
    the switch, and the switch is not undone: the error is printed and
    rethrown, yet the active language and the engine's language are the
    target, and the target has been saved when the store takes the
    write. *)
Theorem changeLanguage_listener_failure
        (language : string) (l1 l2 : list Listener) (l : Listener)
        (e : Exn) (rest : list Action) (s : State) :
  language ∈ Object_values_AppLanguage →
  i18n_changeLanguage_error env language = None →
  listeners s = l1 ++ l :: l2 →
  (∀ x, x ∈ l1 → keeps_registry env language x) →
  listener_body env l language = Raise e :: rest →
  ∃ s', changeLanguage env language s = (Throw e, s')
        ∧ currentLanguage s' = language
        ∧ i18n_language (i18n s') = Some language
        ∧ (mmkv_set_error env CURRENT_LANGUAGE = None →
           localizationStorage s' !! CURRENT_LANGUAGE = Some language)
        ∧ mkLog ERROR "Failed to change language:" (Some e) ∈ console s'.
Proof.
  intros Hsup Hengine Hls Hkeep Hbody.
  rewrite (changeLanguage_run language s Hsup Hengine). cbv zeta.
  set (saved := match mmkv_set_error env CURRENT_LANGUAGE with
                | Some _ => _ | None => _ end).
  assert (Hsaved : listeners saved = l1 ++ l :: l2 ++ []).
  { subst saved. rewrite app_nil_r.
    by destruct (mmkv_set_error env CURRENT_LANGUAGE). }
  destruct (forEach_from_raise env language l1 l2 [] l e rest
              (length (listeners saved)) 0 saved Hkeep Hbody Hsaved)
    as (s3 & Hfor & _).
  { lia. }
  { rewrite Hsaved, length_app. simpl. lia. }
  pose proof (emit_frame env language saved) as Hframe.
  unfold emit in *. js_simp. rewrite Hfor in *. simpl in Hframe.
  eexists. split; [reflexivity|]. simpl.
  rewrite Hframe. subst saved. split_and!.
  - by destruct (mmkv_set_error env CURRENT_LANGUAGE).
  - by destruct (mmkv_set_error env CURRENT_LANGUAGE).
  - intros ->. simpl. apply lookup_insert_eq.
  - rewrite elem_of_app, list_elem_of_singleton. by right.
Qed.


End ChangeLanguage.

Lemma changeLanguage_success_witness :
  ∃ s', changeLanguage Scenario.env_ok "fr" Scenario.three_subscribers
        = (Normal tt, s')
        ∧ currentLanguage s' = "fr"
        ∧ i18n_language (i18n s') = Some "fr"
        ∧ localizationStorage s'
          = <["current_language" := "fr"]>
              (localizationStorage Scenario.three_subscribers)
        ∧ calls s' = calls Scenario.three_subscribers
                     ++ map (λ l, (l, "fr")) [1%nat; 2%nat; 3%nat]
        ∧ translationCache s'
          = translationCache Scenario.three_subscribers
        ∧ isInitialized s' = true.
Proof.
  apply (changeLanguage_success Scenario.env_ok "fr"
           Scenario.three_subscribers).
  - apply (bool_decide_unpack _). vm_compute. exact I.
  - reflexivity.
  - reflexivity.
  - intros l _. reflexivity.
Defined.

Lemma changeLanguage_engine_failure_witness :
  changeLanguage Scenario.env_engine_stuck "fr" Scenario.ready
  = (Throw (Error "switch failed"),
     set_console
       (console Scenario.ready
        ++ [mkLog ERROR "Failed to change language:"
                  (Some (Error "switch failed"))])
       Scenario.ready).
Proof.
  apply (changeLanguage_engine_failure Scenario.env_engine_stuck "fr"
           (Error "switch failed") Scenario.ready).
  - apply (bool_decide_unpack _). vm_compute. exact I.
  - reflexivity.
Defined.

Lemma changeLanguage_listener_failure_witness :
  ∃ s', changeLanguage Scenario.env_thrower "fr"
          Scenario.three_subscribers
        = (Throw (Error "listener failed"), s')
        ∧ currentLanguage s' = "fr"
        ∧ i18n_language (i18n s') = Some "fr"
        ∧ (mmkv_set_error Scenario.env_thrower CURRENT_LANGUAGE = None →
           localizationStorage s' !! CURRENT_LANGUAGE = Some "fr")
        ∧ mkLog ERROR "Failed to change language:"
                (Some (Error "listener failed")) ∈ console s'.
Proof.
  apply (changeLanguage_listener_failure Scenario.env_thrower "fr"
           [1%nat] [3%nat] 2%nat (Error "listener failed") []
           Scenario.three_subscribers).
  - apply (bool_decide_unpack _). vm_compute. exact I.
  - reflexivity.
  - reflexivity.
  - intros x Hx. apply list_elem_of_singleton in Hx as ->. reflexivity.
  - reflexivity.
Defined.


(** ** What every sequence of calls preserves *)

Lemma buildI18nResources_run (s : State) :
  ∃ resources,
    buildI18nResources s = (Normal resources, s)
    ∧ ∀ language,
        resources !! language
        = if bool_decide (language ∈ Object_values_AppLanguage)
          then translationCache s !! language else None.
Proof.
  unfold buildI18nResources. js_simp. eexists. split; [reflexivity|].
  intros language.
  unfold Object_values_AppLanguage, AppLanguage_en, AppLanguage_fr.
  destruct (decide (language = "en")) as [->|Hen];
    [|destruct (decide (language = "fr")) as [->|Hfr]].
  - rewrite bool_decide_eq_true_2 by (by left).
    destruct (translationCache s !! "fr"), (translationCache s !! "en");
      by simplify_map_eq.
  - rewrite bool_decide_eq_true_2 by (right; by left).
    destruct (translationCache s !! "fr"), (translationCache s !! "en");
      by simplify_map_eq.
  - rewrite bool_decide_eq_false_2.
    + destruct (translationCache s !! "fr"), (translationCache s !! "en");
        by simplify_map_eq.
    + rewrite !elem_of_cons, elem_of_nil. intuition congruence.
Qed.

Section Facade.

Variable env : Env.

Lemma initialize_ready (translations : gmap string Localizations)
      (allowLanguageOverride : bool) (s : State) :
  isInitialized s = true →
  initialize env translations allowLanguageOverride s = (Normal tt, s).
Proof.
  intros Hready. unfold initialize. unfold bind at 1, gets at 1.
  by rewrite Hready.
Qed.

(** The run of [initialize] on a facade that is not initialized, with
    the language it resolves and the resources it hands to the engine. *)
Lemma initialize_fresh (translations : gmap string Localizations)
      (allowLanguageOverride : bool) (s : State) :
  isInitialized s = false →
  ∃ s1 s2 resources,
    printed s s1
    ∧ loadTranslations env translations s1 = (Normal tt, s2)
    ∧ buildI18nResources s2 = (Normal resources, s2)
    ∧ initialize env translations allowLanguageOverride s
      = let resolved :=
          Spec.resolveInitialLanguage
            (Spec.persisted env s LANGUAGE_OVERRIDE)
            (Spec.persisted env s CURRENT_LANGUAGE)
            (Spec.device_preference env) allowLanguageOverride in
        let options :=
          mkInitOptions resolved FALLBACK_LANGUAGE resources false false in
        match i18n_init_error env options with
        | Some e =>
            (Throw e,
             set_console
               (console s2
                ++ [mkLog ERROR "Failed to initialize localization:"
                          (Some e)]) s2)
        | None =>
            (Normal tt,
             set_console
               (console s2
                ++ [mkLog LOG ("Localization initialized with language: "
                               +:+ resolved) None])
               (set_isInitialized true
                  (set_currentLanguage resolved
                     (set_i18n (mkI18n (Some options) (Some resolved))
                               s2))))
        end.
Proof.
  intros Hfresh. unfold initialize.
  unfold bind at 1, gets at 1. rewrite Hfresh.
  destruct (getInitialLanguage_run env allowLanguageOverride s)
    as (s1 & Hresolve & Hprinted).
  pose proof (for_of_normal env translations Object_values_AppLanguage s1)
    as Hnormal.
  fold (loadTranslations env translations) in Hnormal.
  destruct (loadTranslations env translations s1) as [r s2] eqn:Hload.
  simpl in Hnormal. subst r.
  destruct (buildI18nResources_run s2) as (resources & Hbuild & _).
  exists s1, s2, resources. split_and!; [done..|].
  unfold try_catch, i18n_init, console_error, console_log, console_print.
  unfold bind at 1. rewrite Hresolve.
  unfold bind at 1. rewrite Hload.
  unfold bind at 1. rewrite Hbuild. cbv zeta.
  js_simp. destruct (i18n_init_error env _); reflexivity.
Qed.

(** What a pass of [loadTranslations] does to the entry of a language:
    nothing, or, for a supported language that was not cached, it stores
    the merged table of its factory. *)
Lemma loadTranslations_cache_cases
      (translations : gmap string Localizations) (language : string)
      (s : State) :
  translationCache (loadTranslations env translations s).2 !! language
  = translationCache s !! language
  ∨ (language ∈ Object_values_AppLanguage
     ∧ ∃ factory,
         languageFactories (en_json env) (fr_json env) language
         = Some factory
         ∧ translationCache (loadTranslations env translations s).2
             !! language
           = Some (mergedTranslations translations language (factory tt))).
Proof.
  unfold loadTranslations.
  destruct (decide (language ∈ Object_values_AppLanguage)) as [Hin|Hout].
  - destruct (translationCache s !! language) as [table|] eqn:Hcache.
    + left.
      destruct (for_of_preserves env translations
                  Object_values_AppLanguage language s) as (Hc & _).
      { right. by rewrite Hcache. }
      by rewrite Hc.
    + right. split; [done|].
      destruct (languageFactories_defined (en_json env) (fr_json env)
                  language Hin) as [factory Hfactory].
      exists factory. split; [done|].
      by destruct (for_of_entry env translations Object_values_AppLanguage
                     language factory s Hin Hcache Hfactory).
  - left.
    by destruct (for_of_preserves env translations
                   Object_values_AppLanguage language s) as (Hc & _);
      [left|].
Qed.

Lemma merged_covers_reference
      (translations : gmap string Localizations) (language : string)
      (factory : unit → Localizations) :
  languageFactories (en_json env) (fr_json env) language = Some factory →
  dom (en_json env)
  ⊆ dom (mergedTranslations translations language (factory tt)).
Proof.
  intros Hfactory.
  assert (Hbase : dom (en_json env) ⊆ dom (factory tt)).
  { unfold languageFactories in Hfactory.
    destruct (String.eqb language AppLanguage_en).
    - by injection Hfactory as <-.
    - destruct (String.eqb language AppLanguage_fr); [|done].
      injection Hfactory as <-. rewrite spread_keys.
      apply union_subseteq_l. }
  unfold mergedTranslations.
  destruct (translations !! language) as [override|]; [|done].
  rewrite spread_keys. etrans; [exact Hbase|apply union_subseteq_l].
Qed.

(** What one call can do to the active language, the initialized flag
    and the cache. *)
Lemma run_call_frame (c : Call) (s : State) :
  (currentLanguage (run_call env c s) = currentLanguage s
   ∨ currentLanguage (run_call env c s) ∈ Object_values_AppLanguage)
  ∧ (isInitialized s = true → isInitialized (run_call env c s) = true)
  ∧ ∀ language table,
      translationCache (run_call env c s) !! language = Some table →
      translationCache s !! language = Some table
      ∨ (language ∈ Object_values_AppLanguage
         ∧ dom (en_json env) ⊆ dom table).
Proof.
  destruct c as [translations allow| |language|key options|l|l| |]; simpl.
  - unfold initializeI18n.
    destruct (isInitialized s) eqn:Hflag.
    { rewrite initialize_ready by done. simpl. auto. }
    destruct (initialize_fresh (default ∅ translations) allow s Hflag)
      as (s1 & s2 & resources & Hp & Hload & _ & ->).
    apply printed_frame in Hp as (Hl1 & _ & Hc1 & _).
    pose proof (for_of_frame env (default ∅ translations)
                  Object_values_AppLanguage s1) as Hframe.
    fold (loadTranslations env (default ∅ translations)) in Hframe.
    rewrite Hload in Hframe. simpl in Hframe.
    apply cache_only_frame in Hframe as (Hl2 & _).
    assert (Hcache : ∀ language table,
      translationCache s2 !! language = Some table →
      translationCache s !! language = Some table
      ∨ (language ∈ Object_values_AppLanguage
         ∧ dom (en_json env) ⊆ dom table)).
    { intros language table Htable.
      destruct (loadTranslations_cache_cases (default ∅ translations)
                  language s1) as [Hsame|(Hin & factory & Hf & Hentry)];
        rewrite Hload in *; simpl in *.
      - left. by rewrite <- Hc1, <- Hsame.
      - right. split; [done|]. rewrite Hentry in Htable.
        injection Htable as <-. by apply merged_covers_reference. }
    cbv zeta. destruct (i18n_init_error env _); simpl.
    + split_and!; [left; congruence | done | exact Hcache].
    + split_and!; [right; apply resolveInitialLanguage_supported | done
                   | exact Hcache].
  - auto.
  - unfold changeLanguage. rewrite includes_elem_of.
    case_bool_decide as Hsup; simpl; [|auto].
    destruct (i18n_changeLanguage_error env language) as [e|] eqn:Hengine.
    { unfold i18n_changeLanguage, console_error, console_print.
      rewrite Hengine. simpl. auto. }
    pose proof (changeLanguage_run env language s Hsup Hengine) as Hrun.
    unfold changeLanguage in Hrun. rewrite includes_elem_of in Hrun.
    rewrite bool_decide_eq_true_2 in Hrun by done. simpl in Hrun.
    rewrite Hrun. cbv zeta.
    set (saved := match mmkv_set_error env CURRENT_LANGUAGE with
                  | Some _ => _ | None => _ end).
    assert (Hsaved : currentLanguage saved = language
                     ∧ isInitialized saved = isInitialized s
                     ∧ translationCache saved = translationCache s).
    { subst saved. by destruct (mmkv_set_error env CURRENT_LANGUAGE). }
    destruct Hsaved as (Hl & Hi & Hc).
    pose proof (emit_frame env language saved) as Hframe.
    destruct (emit env language saved) as [[[]|e] s3]; simpl in *;
      rewrite Hframe; simpl; rewrite Hl, Hi, Hc; auto.
  - unfold t. destruct key as [k|]; simpl; [|auto].
    destruct (truthy k); simpl; auto.
  - auto.
  - unfold unsubscribe. js_simp.
    destruct (Z.ltb (-1) (indexOf (listeners s) l)); simpl; auto.
  - destruct (clearCache_memory env s)
      as (s' & -> & Hcache & Hl & Hi & _). simpl.
    rewrite Hl, Hi, Hcache. split_and!; [auto..|].
    intros language table Htable. by rewrite lookup_empty in Htable.
  - unfold getCacheStats, storage_getAllKeys.
    destruct (mmkv_getAllKeys_error env); simpl; auto.
Qed.

(** X15. Whatever is in the durable store at load time, whatever the
    collaborators and the subscribers do, and whichever public methods
    are called in whichever order, with whatever arguments and outcomes,
    the active language is a supported language. *)
Theorem currentLanguage_always_supported
        (stored : gmap string string) (cs : list Call) :
  currentLanguage (run_calls env cs (initial_state stored))
  ∈ Object_values_AppLanguage.
Proof.
  unfold run_calls.
  assert (Hinit : currentLanguage (initial_state stored)
                  ∈ Object_values_AppLanguage) by (by left).
  revert Hinit. generalize (initial_state stored).
  induction cs as [|c cs IH]; intros s Hs; simpl; [done|].
  apply IH. destruct (run_call_frame c s) as ([->|]&_); done.
Qed.

(** X16. Under the same generality, every table in the translation
    cache belongs to a supported language and has every key of the
    reference table, so the cache never holds more entries than there are
    supported languages. *)
Theorem cache_always_complete
        (stored : gmap string string) (cs : list Call) :
  cache_complete env (run_calls env cs (initial_state stored))
  ∧ (size (translationCache (run_calls env cs (initial_state stored)))
     ≤ length Object_values_AppLanguage)%nat.
Proof.
  assert (Hcomplete :
    cache_complete env (run_calls env cs (initial_state stored))).
  { unfold run_calls.
    assert (Hinit : cache_complete env (initial_state stored)).
    { intros language table Htable. simpl in Htable.
      by rewrite lookup_empty in Htable. }
    revert Hinit. generalize (initial_state stored).
    induction cs as [|c cs IH]; intros s Hs; simpl; [done|].
    apply IH. intros language table Htable.
    destruct (run_call_frame c s) as (_ & _ & Hcache).
    destruct (Hcache language table Htable) as [Hold|]; [|done].
    by apply (Hs language table). }
  split; [exact Hcomplete|].
  rewrite <- size_dom.
  etrans; [apply (subseteq_size _ (list_to_set Object_values_AppLanguage))|].
  - intros language Hin. apply elem_of_dom in Hin as [table Htable].
    apply elem_of_list_to_set. by apply (Hcomplete language table).
  - reflexivity.
Qed.

(** X17. Once the facade is initialized it stays initialized: no
    public call, failing or not, resets the flag. *)
Theorem ready_is_permanent (cs : list Call) (s : State) :
  isInitialized s = true → isInitialized (run_calls env cs s) = true.
Proof.
  unfold run_calls. revert s.
  induction cs as [|c cs IH]; intros s Hs; simpl; [done|].
  apply IH. by apply run_call_frame.
Qed.

End Facade.

Lemma ready_is_permanent_witness :
  isInitialized
    (run_calls Scenario.env_no_wipe
       [CallClearCache; CallChangeLanguage "de"; CallChangeLanguage "fr";
        CallInitialize None false]
       Scenario.ready) = true.
Proof.
  apply (ready_is_permanent Scenario.env_no_wipe). reflexivity.
Defined.

(** ** [initialize], once and again *)

Section Initialize.

Variable env : Env.

(** X18. After a call of [initialize] that returned normally, any
    further call, with the same or other arguments, returns normally and
    changes nothing: nothing is resolved, loaded or printed again. *)
Theorem initialize_twice
        (translations translations' : gmap string Localizations)
        (allowLanguageOverride allowLanguageOverride' : bool) (s : State) :
  (initialize env translations allowLanguageOverride s).1 = Normal tt →
  initialize env translations' allowLanguageOverride'
    (initialize env translations allowLanguageOverride s).2
  = (Normal tt, (initialize env translations allowLanguageOverride s).2).
Proof.
  intros Hnormal. apply initialize_ready.
  destruct (isInitialized s) eqn:Hflag.
  { by rewrite initialize_ready. }
  destruct (initialize_fresh env translations allowLanguageOverride s Hflag)
    as (s1 & s2 & resources & _ & _ & _ & Hrun).
  rewrite Hrun in *. cbv zeta in *.
  by destruct (i18n_init_error env _).
Qed.

(** X19. On a facade that is not initialized and with an engine whose
    setup goes through, [initialize] returns normally and leaves the
    facade initialized; the active language and the engine's language are
    the resolved language; every supported language has a cached table;
    and the engine was set up with the fallback language ['en'] and, for
    each supported language, the cached table. *)
Theorem initialize_success
        (translations : gmap string Localizations)
        (allowLanguageOverride : bool) (s : State) :
  isInitialized s = false →
  (∀ options, i18n_init_error env options = None) →
  ∃ s' options,
    initialize env translations allowLanguageOverride s = (Normal tt, s')
    ∧ isInitialized s' = true
    ∧ currentLanguage s'
      = Spec.resolveInitialLanguage
          (Spec.persisted env s LANGUAGE_OVERRIDE)
          (Spec.persisted env s CURRENT_LANGUAGE)
          (Spec.device_preference env) allowLanguageOverride
    ∧ i18n s' = mkI18n (Some options) (Some (currentLanguage s'))
    ∧ lng options = currentLanguage s'
    ∧ fallbackLng options = "en"
    ∧ ∀ language,
        language ∈ Object_values_AppLanguage →
        is_Some (translationCache s' !! language)
        ∧ resources options !! language = translationCache s' !! language.
Proof.
  intros Hfresh Hengine.
  destruct (initialize_fresh env translations allowLanguageOverride s Hfresh)
    as (s1 & s2 & resources & _ & Hload & Hbuild & Hrun).
  rewrite Hrun. cbv zeta. rewrite Hengine.
  eexists _, _. split; [reflexivity|]. simpl.
  split_and!; [done..|].
  intros language Hin.
  pose proof (loadTranslations_fills env translations language s1 Hin)
    as Hfilled.
  rewrite Hload in Hfilled. simpl in Hfilled. split; [done|].
  destruct (buildI18nResources_run s2) as (resources' & Hbuild' & Hlookup).
  rewrite Hbuild in Hbuild'. injection Hbuild' as <-.
  by rewrite Hlookup, bool_decide_eq_true_2.
Qed.

(** X20. A pass of [loadTranslations] adds to the cached languages
    exactly the supported ones; started on an empty cache it leaves as
    many entries as there are supported languages. *)
Theorem loadTranslations_counts
        (translations : gmap string Localizations) (s : State) :
  dom (translationCache (loadTranslations env translations s).2)
  = dom (translationCache s) ∪ list_to_set Object_values_AppLanguage
  ∧ (translationCache s = ∅ →
     size (translationCache (loadTranslations env translations s).2)
     = length Object_values_AppLanguage).
Proof.
  assert (Hdom :
    dom (translationCache (loadTranslations env translations s).2)
    = dom (translationCache s) ∪ list_to_set Object_values_AppLanguage).
  { apply set_eq. intros language.
    rewrite elem_of_union, elem_of_list_to_set, !elem_of_dom. split.
    - intros Hsome.
      destruct (loadTranslations_cache_cases env translations language s)
        as [Hsame|[Hin _]]; [left; by rewrite <- Hsame | by right].
    - intros [Hold|Hin].
      + destruct (for_of_preserves env translations
                    Object_values_AppLanguage language s) as (Hc & _);
          [by right|].
        fold (loadTranslations env translations) in Hc. by rewrite Hc.
      + by apply loadTranslations_fills. }
  split; [exact Hdom|].
  intros Hempty. rewrite <- size_dom, Hdom, Hempty, dom_empty_L.
  reflexivity.
Qed.

End Initialize.

Lemma initialize_twice_witness :
  initialize Scenario.env_ok Scenario.overrides false
    (initialize Scenario.env_ok ∅ true (initial_state Scenario.stored)).2
  = (Normal tt,
     (initialize Scenario.env_ok ∅ true (initial_state Scenario.stored)).2).
Proof.
  apply (initialize_twice Scenario.env_ok ∅ Scenario.overrides true false
           (initial_state Scenario.stored)).
  reflexivity.
Defined.

Lemma initialize_success_witness :
  ∃ s' options,
    initialize Scenario.env_french_device Scenario.overrides true
      (initial_state ∅) = (Normal tt, s')
    ∧ isInitialized s' = true
    ∧ currentLanguage s' = "fr"
    ∧ i18n s' = mkI18n (Some options) (Some (currentLanguage s'))
    ∧ lng options = currentLanguage s'
    ∧ fallbackLng options = "en"
    ∧ ∀ language,
        language ∈ Object_values_AppLanguage →
        is_Some (translationCache s' !! language)
        ∧ resources options !! language = translationCache s' !! language.
Proof.
  destruct (initialize_success Scenario.env_french_device
              Scenario.overrides true (initial_state ∅))
    as (s' & options & Hrun & Hready & Hlanguage & Hrest).
  - reflexivity.
  - intros options. reflexivity.
  - exists s', options.
    split; [exact Hrun|]. split; [exact Hready|]. split; [|exact Hrest].
    etrans; [exact Hlanguage|]. vm_compute. reflexivity.
Defined.

Lemma loadTranslations_counts_witness :
  size (translationCache
          (loadTranslations Scenario.env_readonly Scenario.overrides
             (initial_state Scenario.stored)).2) = 2%nat.
Proof.
  apply (proj2 (loadTranslations_counts Scenario.env_readonly
                  Scenario.overrides (initial_state Scenario.stored))).
  reflexivity.
Defined.

(** ** After [clearCache] *)

Section ClearCache.

Variable env : Env.

Lemma storage_keys_length (s : State) :
  length (map_to_list (localizationStorage s)).*1
  = size (localizationStorage s).
Proof. by rewrite length_fmap, length_map_to_list. Qed.

(** For an initialized facade a call either leaves the translation
    cache as it is or empties it. *)
Lemma run_call_ready_cache (c : Call) (s : State) :
  isInitialized s = true →
  translationCache (run_call env c s) = translationCache s
  ∨ translationCache (run_call env c s) = ∅.
Proof.
  intros Hready.
  destruct c as [translations allow| |language|key options|l|l| |]; simpl.
  - unfold initializeI18n. rewrite initialize_ready by done. by left.
  - by left.
  - left. unfold changeLanguage. rewrite includes_elem_of.
    case_bool_decide as Hsup; simpl; [|done].
    destruct (i18n_changeLanguage_error env language) as [e|] eqn:Hengine.
    { unfold i18n_changeLanguage, console_error, console_print.
      by rewrite Hengine. }
    pose proof (changeLanguage_run env language s Hsup Hengine) as Hrun.
    unfold changeLanguage in Hrun. rewrite includes_elem_of in Hrun.
    rewrite bool_decide_eq_true_2 in Hrun by done. simpl in Hrun.
    rewrite Hrun. cbv zeta.
    set (saved := match mmkv_set_error env CURRENT_LANGUAGE with
                  | Some _ => _ | None => _ end).
    assert (Hc : translationCache saved = translationCache s).
    { subst saved. by destruct (mmkv_set_error env CURRENT_LANGUAGE). }
    pose proof (emit_frame env language saved) as Hframe.
    destruct (emit env language saved) as [[[]|e] s3]; simpl in *;
      rewrite Hframe; simpl; by rewrite Hc.
  - left. unfold t. destruct key as [k|]; simpl; [|done].
    by destruct (truthy k).
  - by left.
  - left. unfold unsubscribe. js_simp.
    by destruct (Z.ltb (-1) (indexOf (listeners s) l)).
  - right. by destruct (clearCache_memory env s) as (s' & -> & Hcache & _).
  - left. unfold getCacheStats, storage_getAllKeys.
    by destruct (mmkv_getAllKeys_error env).
Qed.

(** X21. [clearCache] wipes the whole store, the saved language and
    the override with it: when the wipe goes through, the next
    resolution, with overrides allowed or not, falls to the device
    language if supported and to ['en'] otherwise, whatever choice was
    saved before. *)
Theorem clearCache_forgets_choice
        (allowLanguageOverride : bool) (s : State) :
  mmkv_clearAll_error env = None →
  (getInitialLanguage env allowLanguageOverride (clearCache env s).2).1
  = Normal (default FALLBACK_LANGUAGE
              (Spec.names_supported (Spec.device_preference env))).
Proof.
  intros Hclear.
  destruct (clearCache_memory env s)
    as (s' & -> & _ & _ & _ & _ & _ & _ & Hstore).
  rewrite Hclear in Hstore. simpl.
  destruct (getInitialLanguage_run env allowLanguageOverride s')
    as (s'' & -> & _). simpl. f_equal.
  unfold Spec.resolveInitialLanguage, Spec.persisted.
  rewrite Hstore, !lookup_empty.
  destruct (mmkv_getString_error env LANGUAGE_OVERRIDE),
    (mmkv_getString_error env CURRENT_LANGUAGE), allowLanguageOverride;
    simpl; by destruct (Spec.names_supported _).
Qed.

(** X22. When the store cannot be wiped, [clearCache] still returns
    normally: the error is printed, the in-memory map is empty and the
    store is as it was, so that [getCacheStats] then reports no cached
    language together with every key the store had. *)
Theorem clearCache_store_failure (e : Exn) (s : State) :
  mmkv_clearAll_error env = Some e →
  mmkv_getAllKeys_error env = None →
  ∃ s', clearCache env s = (Normal tt, s')
        ∧ translationCache s' = ∅
        ∧ localizationStorage s' = localizationStorage s
        ∧ mkLog ERROR "Failed to clear localization cache:" (Some e)
          ∈ console s'
        ∧ getCacheStats env s'
          = (Normal (mkStats 0 (size (localizationStorage s))), s').
Proof.
  intros Hclear Hkeys.
  unfold clearCache, storage_clearAll, console_log, console_error,
    console_print.
  rewrite Hclear. js_simp. eexists. split; [reflexivity|]. simpl.
  split_and!; [done..| |].
  - rewrite elem_of_app, list_elem_of_singleton. by right.
  - unfold getCacheStats, storage_getAllKeys. rewrite Hkeys. js_simp.
    by rewrite map_size_empty, length_fmap, length_map_to_list.
Qed.

(** X23. On an initialized facade no sequence of public calls adds or
    replaces a cached table; in particular, once [clearCache] has run,
    the in-memory map stays empty whatever is called afterwards,
    [initialize] included. *)
Theorem ready_cache_never_refilled (cs : list Call) (s : State) :
  isInitialized s = true →
  translationCache (run_calls env cs s) ⊆ translationCache s
  ∧ translationCache (run_calls env cs (clearCache env s).2) = ∅.
Proof.
  assert (Hsub : ∀ cs s, isInitialized s = true →
            translationCache (run_calls env cs s) ⊆ translationCache s).
  { clear cs s. unfold run_calls.
    induction cs as [|c cs IH]; intros s Hready; simpl; [done|].
    etrans; [apply IH; by apply run_call_frame|].
    destruct (run_call_ready_cache c s Hready) as [-> | ->]; [done|].
    apply map_empty_subseteq. }
  intros Hready. split; [by apply Hsub|].
  destruct (clearCache_memory env s)
    as (s' & Hrun & Hcache & _ & Hflag & _).
  rewrite Hrun. simpl.
  assert (Hready' : isInitialized s' = true) by congruence.
  specialize (Hsub cs s' Hready'). rewrite Hcache in Hsub.
  apply map_empty. intros language.
  destruct (translationCache (run_calls env cs s') !! language)
    as [table|] eqn:Htable; [|done].
  eapply lookup_weaken in Htable; [|exact Hsub].
  by rewrite lookup_empty in Htable.
Qed.

(** X24. [getCacheStats] changes nothing; it reports the number of
    entries of the in-memory map and the number of keys of the store, and
    when the store cannot list its keys the error reaches the caller:
    this read is not guarded. *)
Theorem getCacheStats_counts (s : State) :
  getCacheStats env s
  = match mmkv_getAllKeys_error env with
    | None =>
        (Normal (mkStats (size (translationCache s))
                         (size (localizationStorage s))), s)
    | Some e => (Throw e, s)
    end.
Proof.
  unfold getCacheStats, storage_getAllKeys.
  destruct (mmkv_getAllKeys_error env); js_simp; [done|].
  by rewrite storage_keys_length.
Qed.

End ClearCache.

Lemma clearCache_forgets_choice_witness :
  (getInitialLanguage Scenario.env_french_device true
     (clearCache Scenario.env_french_device
        (initial_state Scenario.stored)).2).1 = Normal "fr".
Proof.
  apply (clearCache_forgets_choice Scenario.env_french_device true
           (initial_state Scenario.stored)).
  reflexivity.
Defined.

Lemma clearCache_store_failure_witness :
  ∃ s', clearCache Scenario.env_no_wipe (initial_state Scenario.stored)
        = (Normal tt, s')
        ∧ translationCache s' = ∅
        ∧ localizationStorage s' = Scenario.stored
        ∧ mkLog ERROR "Failed to clear localization cache:"
                (Some (Error "wipe failed")) ∈ console s'
        ∧ getCacheStats Scenario.env_no_wipe s'
          = (Normal (mkStats 0 (size Scenario.stored)), s').
Proof.
  apply (clearCache_store_failure Scenario.env_no_wipe
           (Error "wipe failed") (initial_state Scenario.stored));
    reflexivity.
Defined.

Lemma ready_cache_never_refilled_witness :
  translationCache
    (run_calls Scenario.env_ok
       [CallInitialize (Some Scenario.overrides) true;
        CallChangeLanguage "fr"]
       (clearCache Scenario.env_ok Scenario.ready).2) = ∅.
Proof.
  apply (ready_cache_never_refilled Scenario.env_ok
           [CallInitialize (Some Scenario.overrides) true;
            CallChangeLanguage "fr"] Scenario.ready).
  reflexivity.
Defined.

(** ** The mirror of the cache in the durable store *)

Section Mirror.

Variable env : Env.
Variable JSON_parse : string → Completion Localizations.

(** X25. Whatever the store holds and whichever call fails,
    [loadCachedTranslations] returns normally and changes nothing but the
    console.  It yields a table only when the read goes through, a
    non-empty text is stored under [lang_cache_<language>] and the text
    parses; in every other case it yields [null]. *)
Theorem loadCachedTranslations_result (language : string) (s : State) :
  ∃ s', loadCachedTranslations env JSON_parse language s
        = (Normal
             match Spec.persisted env s (LANGUAGE_CACHE_PREFIX +:+ language)
             with
             | Some text =>
                 if truthy text
                 then match JSON_parse text with
                      | Normal table => Some table
                      | Throw _ => None
                      end
                 else None
             | None => None
             end, s')
        ∧ printed s s'.
Proof.
  unfold loadCachedTranslations, storage_getString, Spec.persisted,
    console_warn, console_print.
  destruct (mmkv_getString_error env _) as [e|]; js_simp.
  - eexists; split; [reflexivity | apply printed_line].
  - destruct (localizationStorage s !! _) as [text|]; simpl.
    + destruct (truthy text); simpl.
      * destruct (JSON_parse text) as [table|e]; simpl;
          (eexists; split;
           [reflexivity | first [apply printed_refl | apply printed_line]]).
      * eexists; split; [reflexivity | apply printed_refl].
    + eexists; split; [reflexivity | apply printed_refl].
Qed.

(** X26. What [cacheTranslations] writes, [loadCachedTranslations]
    reads back: with the write and the read of the language's key going
    through, a serialized text that is not empty and a parser that
    inverts the serializer on the table, the table comes back and the
    state is not changed by the read. *)
Theorem cacheTranslations_round_trip
        (language : string) (table : Localizations) (s : State) :
  mmkv_set_error env (LANGUAGE_CACHE_PREFIX +:+ language) = None →
  mmkv_getString_error env (LANGUAGE_CACHE_PREFIX +:+ language) = None →
  truthy (JSON_stringify env table) = true →
  JSON_parse (JSON_stringify env table) = Normal table →
  loadCachedTranslations env JSON_parse language
    (cacheTranslations env language table s).2
  = (Normal (Some table), (cacheTranslations env language table s).2).
Proof.
  intros Hset Hget Htruthy Hparse.
  unfold loadCachedTranslations, cacheTranslations, storage_set,
    storage_getString.
  rewrite Hset, Hget. js_simp.
  by rewrite lookup_insert_eq, Htruthy, Hparse.
Qed.

End Mirror.

Lemma cacheTranslations_round_trip_witness :
  loadCachedTranslations Scenario.env_ok Scenario.parse "en"
    (cacheTranslations Scenario.env_ok "en" Scenario.en
       (initial_state ∅)).2
  = (Normal (Some Scenario.en),
     (cacheTranslations Scenario.env_ok "en" Scenario.en
        (initial_state ∅)).2).
Proof.
  apply (cacheTranslations_round_trip Scenario.env_ok Scenario.parse "en"
           Scenario.en (initial_state ∅)); reflexivity.
Defined.

(** ** The application's start-up *)

Section Startup.

Variable env : Env.

Lemma spread_same (table : Localizations) : spread table table = table.
Proof. unfold spread. apply (idemp_L (∪)). Qed.

(** The run of [initializeApp]: the two factories are called, and the
    tables they return are handed to [initialize]. *)
Lemma initializeApp_run (s : State) :
  App.initializeApp env s
  = let translations : gmap string Localizations :=
      <[AppLanguage_fr := spread (en_json env) (fr_json env)]>
        (<[AppLanguage_en := en_json env]> ∅) in
    match initialize env translations true s with
    | (Normal _, s') => (Normal true, s')
    | (Throw e, s') =>
        (Normal true,
         set_console
           (console s' ++ [mkLog ERROR "Failed to initialize app:" (Some e)])
           s')
    end.
Proof.
  unfold App.initializeApp, App.call_factory, initializeI18n,
    console_error, console_print.
  js_simp. by destruct (initialize env _ true s) as [[[]|e] s'].
Qed.

(** X27. [initializeApp] never throws and always ends by handing
    [true] to [setIsReady]: either the facade is initialized, or the
    failure of the initialization has been printed and the application is
    shown all the same. *)
Theorem initializeApp_always_ready (s : State) :
  ∃ s', App.initializeApp env s = (Normal true, s')
        ∧ (isInitialized s' = true
           ∨ ∃ e, (initialize env
                     (<[AppLanguage_fr := spread (en_json env) (fr_json env)]>
                        (<[AppLanguage_en := en_json env]> ∅)) true s).1
                  = Throw e
                  ∧ mkLog ERROR "Failed to initialize app:" (Some e)
                    ∈ console s').
Proof.
  rewrite initializeApp_run. cbv zeta.
  set (translations := <[AppLanguage_fr := _]> _).
  destruct (isInitialized s) eqn:Hflag.
  { rewrite initialize_ready by done. eexists. split; [reflexivity|].
    by left. }
  destruct (initialize_fresh env translations true s Hflag)
    as (s1 & s2 & resources & _ & _ & _ & ->). cbv zeta.
  destruct (i18n_init_error env _) as [e|]; simpl.
  - eexists. split; [reflexivity|]. right. exists e. split; [done|].
    simpl. rewrite elem_of_app, list_elem_of_singleton. by right.
  - eexists. split; [reflexivity|]. by left.
Qed.

(** X28. The tables that [initializeApp] hands to [initialize] are the
    factories' own, so they change nothing: started on a facade that is
    not initialized, it leaves for every supported language that was not
    cached exactly the table of the language's factory, whether the
    engine then starts or not. *)
Theorem initializeApp_tables (language : string) (s : State) :
  isInitialized s = false →
  language ∈ Object_values_AppLanguage →
  translationCache s !! language = None →
  ∃ factory,
    languageFactories (en_json env) (fr_json env) language = Some factory
    ∧ translationCache (App.initializeApp env s).2 !! language
      = Some (factory tt).
Proof.
  intros Hflag Hin Hnone.
  rewrite initializeApp_run. cbv zeta.
  set (translations := <[AppLanguage_fr := _]> _).
  destruct (initialize_fresh env translations true s Hflag)
    as (s1 & s2 & resources & Hp & Hload & _ & ->). cbv zeta.
  apply printed_frame in Hp as (_ & _ & Hc1 & _).
  destruct (languageFactories_defined (en_json env) (fr_json env)
              language Hin) as [factory Hfactory].
  destruct (for_of_entry env translations Object_values_AppLanguage
              language factory s1 Hin) as [Hentry _];
    [by rewrite Hc1 | done |].
  fold (loadTranslations env translations) in Hentry.
  rewrite Hload in Hentry. simpl in Hentry.
  assert (Hmerged :
    mergedTranslations translations language (factory tt) = factory tt).
  { unfold Object_values_AppLanguage in Hin.
    rewrite !elem_of_cons, elem_of_nil in Hin.
    unfold mergedTranslations.
    destruct Hin as [->|[->|[]]]; injection Hfactory as <-;
      subst translations; simplify_map_eq; apply spread_same. }
  exists factory. split; [done|]. rewrite <- Hmerged.
  by destruct (i18n_init_error env _).
Qed.

End Startup.

Lemma initializeApp_tables_witness :
  ∃ factory,
    languageFactories Scenario.en Scenario.fr "fr" = Some factory
    ∧ translationCache
        (App.initializeApp Scenario.env_engine_down
           (initial_state Scenario.stored)).2 !! "fr"
      = Some (factory tt).
Proof.
  apply (initializeApp_tables Scenario.env_engine_down "fr"
           (initial_state Scenario.stored)).
  - reflexivity.
  - apply (bool_decide_unpack _). vm_compute. exact I.
  - reflexivity.
Defined.

(** ** The two-sided statements on concrete inputs *)

Lemma listMissingStrings_empty_iff_complete_witness :
  listMissingStringsForLanguage Scenario.en Scenario.en "fr" = Some ∅.
Proof.
  apply (proj2 (listMissingStrings_empty_iff_complete
                  Scenario.en Scenario.en)).
  reflexivity.
Defined.

Lemma indexOf_first_occurrence_witness :
  indexOf [1; 2; 3]%nat 7%nat = -1
  ∧ ∃ i : nat, indexOf [1; 2; 3; 2]%nat 2%nat = Z.of_nat i
               ∧ [1; 2; 3; 2]%nat !! i = Some 2%nat
               ∧ ∀ j : nat, (j < i)%nat → [1; 2; 3; 2]%nat !! j ≠ Some 2%nat.
Proof.
  split.
  - apply (proj1 (indexOf_first_occurrence [1; 2; 3]%nat 7%nat)).
    apply (bool_decide_unpack _). vm_compute. exact I.
  - apply (proj2 (indexOf_first_occurrence [1; 2; 3; 2]%nat 2%nat)).
    apply (bool_decide_unpack _). vm_compute. exact I.
Defined.

Lemma unsubscribe_removes_first_witness :
  unsubscribe 7%nat Scenario.two_subscribers
  = (Normal tt, Scenario.two_subscribers)
  ∧ ∃ l1 l2, listeners Scenario.two_subscribers = l1 ++ 2%nat :: l2
             ∧ (2%nat ∉ l1)
             ∧ unsubscribe 2%nat Scenario.two_subscribers
               = (Normal tt,
                  set_listeners (l1 ++ l2) Scenario.two_subscribers).
Proof.
  split.
  - apply (proj1 (unsubscribe_removes_first 7%nat Scenario.two_subscribers)).
    apply (bool_decide_unpack _). vm_compute. exact I.
  - apply (proj2 (unsubscribe_removes_first 2%nat Scenario.two_subscribers)).
    apply (bool_decide_unpack _). vm_compute. exact I.
Defined.

(** ** [initialize] when the engine fails *)

Section InitializeFailure.

Variable env : Env.

(** The run of [initialize] on a facade that is not initialized, in
    terms of the states its first two steps leave: the engine is set up
    once, with the resolved language, the fallback language and the
    resources built from the cache as loaded, and the outcome is the
    outcome of that one call. *)
Lemma initialize_exact (translations : gmap string Localizations)
      (allowLanguageOverride : bool) (s : State) :
  isInitialized s = false →
  ∃ resources,
    buildI18nResources
      (loadTranslations env translations
         (getInitialLanguage env allowLanguageOverride s).2).2
    = (Normal resources,
       (loadTranslations env translations
          (getInitialLanguage env allowLanguageOverride s).2).2)
    ∧ isInitialized
        (loadTranslations env translations
           (getInitialLanguage env allowLanguageOverride s).2).2 = false
    ∧ currentLanguage
        (loadTranslations env translations
           (getInitialLanguage env allowLanguageOverride s).2).2
      = currentLanguage s
    ∧ listeners
        (loadTranslations env translations
           (getInitialLanguage env allowLanguageOverride s).2).2
      = listeners s
    ∧ initialize env translations allowLanguageOverride s
      = let s2 :=
          (loadTranslations env translations
             (getInitialLanguage env allowLanguageOverride s).2).2 in
        let resolved :=
          Spec.resolveInitialLanguage
            (Spec.persisted env s LANGUAGE_OVERRIDE)
            (Spec.persisted env s CURRENT_LANGUAGE)
            (Spec.device_preference env) allowLanguageOverride in
        let options :=
          mkInitOptions resolved FALLBACK_LANGUAGE resources false false in
        match i18n_init_error env options with
        | Some e =>
            (Throw e,
             set_console
               (console s2
                ++ [mkLog ERROR "Failed to initialize localization:"
                          (Some e)]) s2)
        | None =>
            (Normal tt,
             set_console
               (console s2
                ++ [mkLog LOG ("Localization initialized with language: "
                               +:+ resolved) None])
               (set_isInitialized true
                  (set_currentLanguage resolved
                     (set_i18n (mkI18n (Some options) (Some resolved))
                               s2))))
        end.
Proof.
  intros Hfresh. unfold initialize.
  unfold bind at 1, gets at 1. rewrite Hfresh.
  destruct (getInitialLanguage_run env allowLanguageOverride s)
    as (s1 & Hresolve & Hprinted).
  rewrite Hresolve. simpl.
  apply printed_frame in Hprinted as (Hl1 & Hi1 & _ & _ & Hs1 & _).
  pose proof (for_of_normal env translations Object_values_AppLanguage s1)
    as Hnormal.
  pose proof (for_of_frame env translations Object_values_AppLanguage s1)
    as Hframe.
  fold (loadTranslations env translations) in Hnormal, Hframe.
  apply cache_only_frame in Hframe as (Hl2 & Hi2 & Hs2 & _).
  destruct (loadTranslations env translations s1) as [r s2] eqn:Hload.
  simpl in *. subst r.
  destruct (buildI18nResources_run s2) as (resources & Hbuild & _).
  exists resources. split_and!; [done | congruence.. |].
  unfold try_catch, i18n_init, console_error, console_log, console_print.
  unfold bind at 1. rewrite Hresolve.
  unfold bind at 1. rewrite Hload.
  unfold bind at 1. rewrite Hbuild.
  js_simp. destruct (i18n_init_error env _); reflexivity.
Qed.

(** C9. [initialize] sets the engine up once, with the resolved
    language, the fallback language and the resources built from the
    cache as loaded.  On a facade that is not initialized, if that call
    throws [e] then [initialize] throws [e] to its caller.  And
    [initialize] throws [e] only in that case, after printing it, leaving
    the facade not initialized and the active language as it was before
    the call: no run leaves the facade half ready. *)
Theorem initialize_failure
        (translations : gmap string Localizations)
        (allowLanguageOverride : bool) (e : Exn) (s : State) :
  ∃ resources,
    buildI18nResources
      (loadTranslations env translations
         (getInitialLanguage env allowLanguageOverride s).2).2
    = (Normal resources,
       (loadTranslations env translations
          (getInitialLanguage env allowLanguageOverride s).2).2)
    ∧ let options :=
        mkInitOptions
          (Spec.resolveInitialLanguage
             (Spec.persisted env s LANGUAGE_OVERRIDE)
             (Spec.persisted env s CURRENT_LANGUAGE)
             (Spec.device_preference env) allowLanguageOverride)
          FALLBACK_LANGUAGE resources false false in
      (isInitialized s = false →
       i18n_init_error env options = Some e →
       (initialize env translations allowLanguageOverride s).1 = Throw e)
      ∧ ((initialize env translations allowLanguageOverride s).1 = Throw e →
         isInitialized s = false
         ∧ i18n_init_error env options = Some e
         ∧ isInitialized
             (initialize env translations allowLanguageOverride s).2
           = false
         ∧ currentLanguage
             (initialize env translations allowLanguageOverride s).2
           = currentLanguage s
         ∧ listeners
             (initialize env translations allowLanguageOverride s).2
           = listeners s
         ∧ mkLog ERROR "Failed to initialize localization:" (Some e)
           ∈ console
               (initialize env translations allowLanguageOverride s).2).
Proof.
  destruct (buildI18nResources_run
              (loadTranslations env translations
                 (getInitialLanguage env allowLanguageOverride s).2).2)
    as (resources & Hbuild & _).
  exists resources. split; [exact Hbuild|]. cbv zeta.
  destruct (isInitialized s) eqn:Hflag.
  { rewrite initialize_ready by done. by split. }
  destruct (initialize_exact translations allowLanguageOverride s Hflag)
    as (resources' & Hbuild' & Hi & Hl & Hs & Hrun).
  rewrite Hbuild in Hbuild'. injection Hbuild' as <-.
  rewrite Hrun. cbv zeta. split.
  - intros _ Hengine. by rewrite Hengine.
  - destruct (i18n_init_error env _) as [e'|]; [|done].
    simpl. intros [= ->]. split_and!; [done..|].
    rewrite elem_of_app, list_elem_of_singleton. by right.
Qed.

End InitializeFailure.

Lemma initialize_failure_witness :
  (initialize Scenario.env_no_french_engine Scenario.overrides true
     (initial_state ∅)).1 = Throw (Error "init failed")
  ∧ isInitialized
      (initialize Scenario.env_no_french_engine Scenario.overrides true
         (initial_state ∅)).2 = false
  ∧ currentLanguage
      (initialize Scenario.env_no_french_engine Scenario.overrides true
         (initial_state ∅)).2 = "en".
Proof.
  destruct (initialize_failure Scenario.env_no_french_engine
              Scenario.overrides true (Error "init failed")
              (initial_state ∅))
    as (resources & _ & Hthrows & Hframe).
  assert (Hrun : (initialize Scenario.env_no_french_engine
                    Scenario.overrides true (initial_state ∅)).1
                 = Throw (Error "init failed")).
  { apply Hthrows; reflexivity. }
  destruct (Hframe Hrun) as (_ & _ & Hflag & Hlanguage & _).
  split_and!; [exact Hrun | exact Hflag | exact Hlanguage].
Defined.
